(** * FileDetection: a shallow embedding of [file_detection.py]

    The program watches one file, and on the first change notification that
    names it kills every process of a given name, truncates the file and
    stops.  The embedding follows the Python source function by function:

    - the operating system (process table, file system, lock contention,
      console input) is an explicit [world] threaded through a small
      state-and-exception monad [M];
    - every call into the OS is recorded in an event log, so that ordering
      and counting properties can be stated on the log;
    - a computation ends in [Ok], in [Raise] (a Python exception that
      propagates) or in [Blocked] (the thread waits on the OS for ever:
      [ReadDirectoryChangesW] without a further batch, or the foreground
      loop with the flag still set). *)

From stdpp Require Import base decidable option list strings gmap pretty.
From Stdlib Require Import ZArith Lia Ascii.

Local Open Scope Z_scope.
Local Open Scope string_scope.
Local Open Scope list_scope.

(** ** Data model *)

(** Python exceptions that the modelled calls can raise. *)
Inductive exn :=
  | NoSuchProcess (pid : Z)          (* psutil: the process is gone *)
  | AccessDenied (pid : Z)           (* psutil: not allowed to kill it *)
  | PermissionError (path : string)  (* open: sharing violation, access denied *)
  | OSError (path : string)          (* open: any other failure *)
  | WinError (path : string)         (* pywintypes.error of CreateFile *)
  | SystemExit (code : Z)
  | KeyboardInterrupt
  | EOFError.

Global Instance exn_eq_dec : EqDecision exn.
Proof. solve_decision. Defined.

(** What [proc.kill()] does for one process of the table. *)
Inductive kill_outcome := KillOk | KillGone | KillDenied.

Global Instance kill_outcome_eq_dec : EqDecision kill_outcome.
Proof. solve_decision. Defined.

(** One entry of [psutil.process_iter(attrs=['pid', 'name'])].  The name is
    [None] when psutil could not read it. *)
Record process := Process {
  pid : Z;
  name : option string;
  on_kill : kill_outcome
}.

Global Instance process_eq_dec : EqDecision process.
Proof. solve_decision. Defined.

(** What the next [open(path, 'w')] meets. *)
Inductive open_outcome :=
  | OpenOk        (* the file is free *)
  | OpenLocked    (* held by another process: PermissionError *)
  | OpenFails.    (* any other OSError *)

Global Instance open_outcome_eq_dec : EqDecision open_outcome.
Proof. solve_decision. Defined.

(** What [input(...)] meets on standard input. *)
Inductive input_outcome :=
  | InputLine (s : string)
  | InputEOF
  | InputInterrupt.

(** What happens in the foreground thread's environment during one
    [time.sleep(1)] of its wait loop. *)
Inductive sleep_outcome :=
  | SleepQuiet         (* nothing *)
  | SleepFlagCleared   (* the watcher thread sets IS_RUNNING = False *)
  | SleepInterrupted.  (* Ctrl-C: KeyboardInterrupt is raised in the sleep *)

(** A notification record [(action, filename)] of [ReadDirectoryChangesW]. *)
Definition notification : Type := Z * string.

(** The functions of the program, as they appear in the call log. *)
Inductive func := F_kill_process_by_name | F_clear_file_content | F_monitor_file.

Global Instance func_eq_dec : EqDecision func.
Proof. solve_decision. Defined.

(** Observable events, in the order in which the program performs them. *)
Inductive event :=
  | EPrint (line : string)
  | ECall (f : func) (arg : string)
  | EProcessIter
  | EKill (p : Z)
  | EOpen (path : string)
  | ETruncate (path : string) (size : nat)
  | EClose (path : string)
  | ESleep (seconds : Z)
  | ESetRunning (b : bool)
  | ECreateFile (dir : string)
  | EReadDirectoryChanges
  | EThreadStart (file_to_watch process_name : string)
  | EInput (prompt : string).

Global Instance event_eq_dec : EqDecision event.
Proof. solve_decision. Defined.

(** The state of the machine the program runs on. *)
Record world := World {
  IS_RUNNING : bool;                    (* the module-level flag *)
  processes : list process;             (* the OS process table *)
  files : gmap string (list Byte.byte); (* existing files and their content *)
  dirs : gset string;                   (* directories that can be opened *)
  opens : list open_outcome;            (* contention met by the next opens *)
  stdin : list input_outcome            (* what the next input() calls meet *)
}.

Definition set_IS_RUNNING (b : bool) (w : world) : world :=
  World b (processes w) (files w) (dirs w) (opens w) (stdin w).
Definition set_processes (ps : list process) (w : world) : world :=
  World (IS_RUNNING w) ps (files w) (dirs w) (opens w) (stdin w).
Definition set_files (fs : gmap string (list Byte.byte)) (w : world) : world :=
  World (IS_RUNNING w) (processes w) fs (dirs w) (opens w) (stdin w).
Definition set_opens (os : list open_outcome) (w : world) : world :=
  World (IS_RUNNING w) (processes w) (files w) (dirs w) os (stdin w).
Definition set_stdin (ins : list input_outcome) (w : world) : world :=
  World (IS_RUNNING w) (processes w) (files w) (dirs w) (opens w) ins.

(** ** The monad *)

Inductive outcome (A : Type) :=
  | Ok (a : A)
  | Raise (e : exn)
  | Blocked.
Arguments Ok {A} a.
Arguments Raise {A} e.
Arguments Blocked {A}.

Record run (A : Type) := Run {
  result : outcome A;
  after : world;
  log : list event
}.
Arguments Run {A} result after log.
Arguments result {A} r.
Arguments after {A} r.
Arguments log {A} r.

Definition M (A : Type) : Type := world → run A.

Definition ret {A} (a : A) : M A := λ w, Run (Ok a) w [].

Definition bind {A B} (m : M A) (k : A → M B) : M B := λ w,
  let r := m w in
  match result r with
  | Ok a => let r' := k a (after r) in
            Run (result r') (after r') (log r ++ log r')
  | Raise e => Run (Raise e) (after r) (log r)
  | Blocked => Run Blocked (after r) (log r)
  end.

Declare Scope py_scope.
Delimit Scope py_scope with py.
Notation "x <- m ;; k" := (bind m (λ x, k))
  (at level 100, m at next level, right associativity) : py_scope.
Notation "m ;; k" := (bind m (λ _, k))
  (at level 100, right associativity) : py_scope.
Local Open Scope py_scope.

Definition raise {A} (e : exn) : M A := λ w, Run (Raise e) w [].
Definition block {A} : M A := λ w, Run Blocked w [].
Definition emit (e : event) : M unit := λ w, Run (Ok tt) w [e].
Definition get : M world := λ w, Run (Ok w) w [].
Definition modify (f : world → world) : M unit := λ w, Run (Ok tt) (f w) [].

(** [try: m  except E: h] for the exceptions [E] selected by [catches]. *)
Definition try_except {A} (m : M A) (catches : exn → bool) (h : exn → M A) : M A :=
  λ w,
  let r := m w in
  match result r with
  | Raise e =>
      if catches e then
        let r' := h e (after r) in
        Run (result r') (after r') (log r ++ log r')
      else r
  | _ => r
  end.

(** [try: m  finally: fin].  The finaliser runs when [m] returns or raises;
    an exception of the finaliser replaces the pending one.  A blocked [m]
    never reaches the finaliser. *)
Definition try_finally {A} (m : M A) (fin : M unit) : M A := λ w,
  let r := m w in
  match result r with
  | Blocked => r
  | res =>
      let r' := fin (after r) in
      Run (match result r' with
           | Ok _ => res
           | Raise e => Raise e
           | Blocked => Blocked
           end) (after r') (log r ++ log r')
  end.

(** Loop control: what the body of a [for] tells the loop. *)
Inductive flow := Next | Break.

(** [for x in xs: body x], where the body may [break]. *)
Fixpoint for_each {A} (xs : list A) (body : A → M flow) : M unit :=
  match xs with
  | [] => ret tt
  | x :: xs' =>
      c <- body x ;;
      match c with
      | Next => for_each xs' body
      | Break => ret tt
      end
  end.

(** ** The operating system calls *)

Definition print (line : string) : M unit := emit (EPrint line).

Definition time_sleep (seconds : Z) : M unit := emit (ESleep seconds).

(** [psutil.process_iter]: the processes running at the time of the call. *)
Definition process_iter : M (list process) :=
  emit EProcessIter ;;
  w <- get ;;
  ret (processes w).

(** [proc.kill()]. *)
Definition proc_kill (proc : process) : M unit :=
  emit (EKill (pid proc)) ;;
  match on_kill proc with
  | KillOk =>
      modify (λ w, set_processes (filter (λ q, pid q ≠ pid proc) (processes w)) w)
  | KillGone => raise (NoSuchProcess (pid proc))
  | KillDenied => raise (AccessDenied (pid proc))
  end.

(** [open(path, 'w')]: on success the file exists and is empty. *)
Definition open_w (path : string) : M unit :=
  emit (EOpen path) ;;
  w <- get ;;
  modify (set_opens (tail (opens w))) ;;
  match head (opens w) with
  | None | Some OpenOk => modify (λ w, set_files (<[path := []]> (files w)) w)
  | Some OpenLocked => raise (PermissionError path)
  | Some OpenFails => raise (OSError path)
  end.

(** [file.truncate(size)]: cut or zero-fill the content to [size] bytes. *)
Definition resize (size : nat) (content : list Byte.byte) : list Byte.byte :=
  take size content ++ replicate (size - length content)%nat Byte.x00.

Definition file_truncate (path : string) (size : nat) : M unit :=
  emit (ETruncate path size) ;;
  modify (λ w, set_files (alter (resize size) path (files w)) w).

Definition file_close (path : string) : M unit := emit (EClose path).

(** [with open(path, 'w') as file: body]. *)
Definition with_open_w {A} (path : string) (body : M A) : M A :=
  open_w path ;;
  try_finally body (file_close path).

(** [input(prompt)]. *)
Definition input (prompt : string) : M string :=
  emit (EInput prompt) ;;
  w <- get ;;
  modify (set_stdin (tail (stdin w))) ;;
  match head (stdin w) with
  | Some (InputLine s) => ret s
  | Some InputInterrupt => raise KeyboardInterrupt
  | Some InputEOF | None => raise EOFError
  end.

(** [win32file.CreateFile(dir, ...)] on a directory. *)
Definition CreateFile (dir : string) : M unit :=
  emit (ECreateFile dir) ;;
  w <- get ;;
  if decide (dir ∈ dirs w) then ret tt else raise (WinError dir).

(** [os.path.dirname] and [os.path.basename] belong to Python's library,
    not to this program: they are an interface the program is written
    against. *)
Class OsPath := {
  dirname : string → string;
  basename : string → string
}.

(** ** The program *)

Definition is_PermissionError (e : exn) : bool :=
  match e with PermissionError _ => true | _ => false end.

Definition is_KeyboardInterrupt (e : exn) : bool :=
  match e with KeyboardInterrupt => true | _ => false end.

Definition terminating_msg (process_name : string) (p : Z) : string :=
  "Terminating process " +:+ process_name +:+ " (PID: " +:+ pretty p +:+ ")".

Definition kill_process_by_name (process_name : string) : M unit :=
  emit (ECall F_kill_process_by_name process_name) ;;
  procs <- process_iter ;;
  for_each procs (λ proc,
    if decide (name proc = Some process_name) then
      print (terminating_msg process_name (pid proc)) ;;
      proc_kill proc ;;
      ret Next
    else ret Next).

Definition max_retries : nat := 5.

Definition corrupted_msg (file_path : string) : string :=
  "The file is corrupted: " +:+ file_path +:+ ".".

Definition clear_file_content (file_path : string) : M unit :=
  emit (ECall F_clear_file_content file_path) ;;
  for_each (seq 0 max_retries) (λ attempt,
    try_except
      (with_open_w file_path (file_truncate file_path 0) ;;
       print (corrupted_msg file_path) ;;
       ret Break)
      is_PermissionError
      (λ _, time_sleep 1 ;; ret Next)).

Section Program.
Context `{OsPath}.

Definition detected_msg (file_to_watch : string) : string :=
  "Detected activity on " +:+ file_to_watch.

(** The body of [for action, filename in results] in [monitor_file]. *)
Definition on_notification (file_to_watch process_name : string)
    (n : notification) : M flow :=
  let '(action, filename) := n in
  if decide (filename = basename file_to_watch) then
    print (detected_msg file_to_watch) ;;
    kill_process_by_name process_name ;;
    clear_file_content file_to_watch ;;
    emit (ESetRunning false) ;;
    modify (set_IS_RUNNING false) ;;
    ret Break
  else ret Next.

(** [while IS_RUNNING: results = ReadDirectoryChangesW(...); for ...].
    [batches] are the batches the OS will deliver, in order; when none is
    left the call never returns. *)
Fixpoint watch_loop (file_to_watch process_name : string)
    (batches : list (list notification)) : M unit :=
  w <- get ;;
  if IS_RUNNING w then
    emit EReadDirectoryChanges ;;
    match batches with
    | [] => block
    | results :: batches' =>
        for_each results (on_notification file_to_watch process_name) ;;
        watch_loop file_to_watch process_name batches'
    end
  else ret tt.

Definition monitor_file (file_to_watch process_name : string)
    (batches : list (list notification)) : M unit :=
  emit (ECall F_monitor_file file_to_watch) ;;
  CreateFile (dirname file_to_watch) ;;
  watch_loop file_to_watch process_name batches.

(** The foreground [while IS_RUNNING: time.sleep(1)].  [sleeps] says what
    happens during each sleep; when none is left the loop is still
    waiting. *)
Fixpoint wait_loop (sleeps : list sleep_outcome) : M unit :=
  w <- get ;;
  if IS_RUNNING w then
    match sleeps with
    | [] => block
    | s :: sleeps' =>
        time_sleep 1 ;;
        match s with
        | SleepQuiet => wait_loop sleeps'
        | SleepFlagCleared => modify (set_IS_RUNNING false) ;; wait_loop sleeps'
        | SleepInterrupted => raise KeyboardInterrupt
        end
    end
  else ret tt.

Definition usage_msg : string := "Usage: FileDetection <file_path> <process_name>".

Definition monitoring_msg (file_to_watch : string) : string :=
  "Monitoring " +:+ file_to_watch +:+ " for activity...".

Definition ack_prompt : string := "Press Enter to quit".

Definition sys_exit {A} (code : Z) : M A := raise (SystemExit code).

(** [threading.Thread(target=monitor_file, args=..., daemon=True).start()]:
    the watcher runs in its own thread, [monitor_file] above; the foreground
    thread sees it only through the flag (see [sleep_outcome]). *)
Definition thread_start (file_to_watch process_name : string) : M unit :=
  emit (EThreadStart file_to_watch process_name).

(** The [if __name__ == "__main__"] block, run on [sys.argv]. *)
Definition main (argv : list string) (sleeps : list sleep_outcome) : M unit :=
  (if decide (length argv ≠ 3%nat) then
     print usage_msg ;; sys_exit 1
   else ret tt) ;;
  let FILE_TO_WATCH := nth 1 argv "" in
  let PROCESS_NAME := nth 2 argv "" in
  print (monitoring_msg FILE_TO_WATCH) ;;
  thread_start FILE_TO_WATCH PROCESS_NAME ;;
  try_finally
    (try_except (wait_loop sleeps) is_KeyboardInterrupt
       (λ _, print "KeyboardInterrupt"))
    (_ <- input ack_prompt ;; ret tt).

(** The status with which Windows ends a process interrupted by Ctrl-C
    (0xC000013A). *)
Definition STATUS_CONTROL_C_EXIT : Z := 3221225786.

(** The exit status of the interpreter for the outcome of the main thread:
    [None] while the program is still running.  An uncaught
    [KeyboardInterrupt] ends CPython (3.8 and later) on Windows, the platform
    of [win32file], with [STATUS_CONTROL_C_EXIT]; any other uncaught
    exception prints its traceback and gives status 1. *)
Definition exit_code (o : outcome unit) : option Z :=
  match o with
  | Ok _ => Some 0
  | Raise (SystemExit c) => Some c
  | Raise KeyboardInterrupt => Some STATUS_CONTROL_C_EXIT
  | Raise _ => Some 1
  | Blocked => None
  end.

End Program.

(** ** Reading the log *)

(** Classes of events. *)
Definition is_kill_call (e : event) : bool :=
  match e with ECall F_kill_process_by_name _ => true | _ => false end.
Definition is_clear_call (e : event) : bool :=
  match e with ECall F_clear_file_content _ => true | _ => false end.
Definition is_flag_write (e : event) : bool :=
  match e with ESetRunning _ => true | _ => false end.
Definition is_enumeration (e : event) : bool :=
  match e with EProcessIter => true | _ => false end.
Definition is_kill (e : event) : bool :=
  match e with EKill _ => true | _ => false end.
Definition is_open (e : event) : bool :=
  match e with EOpen _ => true | _ => false end.

(** What the watcher itself logs, what the kill step logs after its
    enumeration, and what the truncate step logs after its entry. *)
Definition watch_inner (e : event) : bool :=
  match e with
  | ECall F_monitor_file _ | ECreateFile _ | EReadDirectoryChanges => true
  | _ => false
  end.
Definition kill_inner (e : event) : bool :=
  match e with EPrint _ | EKill _ => true | _ => false end.
Definition clear_inner (e : event) : bool :=
  match e with
  | EOpen _ | ETruncate _ _ | EClose _ | EPrint _ | ESleep _ => true
  | _ => false
  end.

(** The number of events of a class in a log. *)
Definition count (P : event → bool) (l : list event) : nat :=
  length (filter (λ e, P e = true) l).



(** How far the responder got. *)
Inductive progress := NotTriggered | KillRaised | TruncateRaised | Completed.

(** The log of the responder, given what the kill step logged after its
    enumeration ([ks]) and the truncate step after its first [open] ([cs]). *)
Definition responder_log (file_to_watch process_name : string)
    (ks cs : list event) (p : progress) : list event :=
  match p with
  | NotTriggered => []
  | KillRaised =>
      EPrint (detected_msg file_to_watch) ::
      ECall F_kill_process_by_name process_name :: EProcessIter :: ks
  | TruncateRaised =>
      EPrint (detected_msg file_to_watch) ::
      ECall F_kill_process_by_name process_name :: EProcessIter :: ks ++
      ECall F_clear_file_content file_to_watch :: EOpen file_to_watch :: cs
  | Completed =>
      EPrint (detected_msg file_to_watch) ::
      ECall F_kill_process_by_name process_name :: EProcessIter :: ks ++
      ECall F_clear_file_content file_to_watch :: EOpen file_to_watch :: cs ++
      [ESetRunning false]
  end.

(** ** Vocabulary of the statements *)

(** The processes the selector names, in table order. *)
Definition matching (process_name : string) (procs : list process) : list process :=
  filter (λ p, name p = Some process_name) procs.

(** The exception [proc.kill()] raises for a process, if any. *)
Definition kill_error (p : process) : option exn :=
  match on_kill p with
  | KillOk => None
  | KillGone => Some (NoSuchProcess (pid p))
  | KillDenied => Some (AccessDenied (pid p))
  end.

(** The processes that receive a termination call: the matching ones, up to
    and including the first whose call fails. *)
Fixpoint attempted (process_name : string) (procs : list process) : list process :=
  match procs with
  | [] => []
  | p :: procs' =>
      if decide (name p = Some process_name) then
        p :: (if decide (on_kill p = KillOk) then attempted process_name procs' else [])
      else attempted process_name procs'
  end.

(** The termination calls recorded in a log, in order. *)
Definition kills (l : list event) : list Z :=
  omap (λ e, match e with EKill p => Some p | _ => None end) l.

Definition kill_events (process_name : string) (p : process) : list event :=
  [EPrint (terminating_msg process_name (pid p)); EKill (pid p)].

Definition kill_result (ps : list process) : outcome unit :=
  match head (omap kill_error ps) with
  | Some e => Raise e
  | None => Ok tt
  end.

(** The process table after the calls that succeeded. *)
Definition reap (ps : list process) (table : list process) : list process :=
  foldl (λ t p, if decide (on_kill p = KillOk) then filter (λ q, pid q ≠ pid p) t else t)
        table ps.

Definition kill_body (process_name : string) (proc : process) : M flow :=
  if decide (name proc = Some process_name) then
    print (terminating_msg process_name (pid proc)) ;;
    proc_kill proc ;;
    ret Next
  else ret Next.

(** What the [k]-th [open] from now meets; nothing scripted means free. *)
Definition contention (w : world) (k : nat) : open_outcome :=
  default OpenOk (opens w !! k).

(** The attempts to open [path] recorded in a log. *)
Definition attempts (path : string) (l : list event) : nat :=
  length (filter (λ e, e = EOpen path) l).

Definition clear_body (file_path : string) (attempt : nat) : M flow :=
  try_except
    (with_open_w file_path (file_truncate file_path 0) ;;
     print (corrupted_msg file_path) ;;
     ret Break)
    is_PermissionError
    (λ _, time_sleep 1 ;; ret Next).

(** The world after one successful attempt. *)
Definition truncated (path : string) (w : world) : world :=
  set_files (<[path := []]> (files w)) (set_opens (tail (opens w)) w).

Definition success_events (path : string) : list event :=
  [EOpen path; ETruncate path 0; EClose path; EPrint (corrupted_msg path)].

Definition locked_events (path : string) : list event :=
  [EOpen path; ESleep 1].

Definition is_input (e : event) : bool :=
  match e with EInput _ => true | _ => false end.
Definition is_sleep (e : event) : bool :=
  match e with ESleep _ => true | _ => false end.
Definition is_read (e : event) : bool :=
  match e with EReadDirectoryChanges => true | _ => false end.

(** The lines printed in a log, in order. *)
Definition prints (l : list event) : list string :=
  omap (λ e, match e with EPrint line => Some line | _ => None end) l.



Section Vocabulary.
Context `{OsPath}.

(** A notification names the watched file. *)
Definition names_target (file_to_watch : string) (n : notification) : Prop :=
  n.2 = basename file_to_watch.

Global Instance names_target_dec file_to_watch n :
  Decision (names_target file_to_watch n).
Proof. unfold names_target. apply _. Defined.

(** Some batch holds a notification that names the watched file. *)
Definition fires (file_to_watch : string) (batches : list (list notification)) : Prop :=
  Exists (Exists (names_target file_to_watch)) batches.

(** The number of [ReadDirectoryChangesW] calls of a watcher whose flag is
    set when it starts: one per batch up to the first that fires, or one
    more than there are batches. *)
Fixpoint reads (file_to_watch : string) (batches : list (list notification)) : nat :=
  match batches with
  | [] => 1
  | results :: batches' =>
      if decide (Exists (names_target file_to_watch) results) then 1
      else S (reads file_to_watch batches')
  end.

(** What [monitor_file] does for a notification that names the file. *)
Definition triggered (file_to_watch process_name : string) : M flow :=
  print (detected_msg file_to_watch) ;;
  kill_process_by_name process_name ;;
  clear_file_content file_to_watch ;;
  emit (ESetRunning false) ;;
  modify (set_IS_RUNNING false) ;;
  ret Break.

(** The run of a loop whose body ran [r] and left the loop. *)
Definition finish (r : run flow) : run unit :=
  Run (match result r with
       | Ok _ => Ok tt
       | Raise e => Raise e
       | Blocked => Blocked
       end) (after r) (log r).

End Vocabulary.

(** ** Sample machines *)

(** Paths split at their last separator: enough for paths such as
    [C:\dir\file], on which it agrees with Python's [ntpath]. *)
Definition is_separator (c : ascii) : bool :=
  bool_decide (c = "/"%char ∨ c = "\"%char).

Fixpoint split_path (s : string) : option string * string :=
  match s with
  | EmptyString => (None, EmptyString)
  | String c s' =>
      let '(d, b) := split_path s' in
      match d with
      | Some d' => (Some (String c d'), b)
      | None => if is_separator c then (Some EmptyString, b) else (None, String c b)
      end
  end.

Definition plain_paths : OsPath := {|
  dirname s := default EmptyString (split_path s).1;
  basename s := (split_path s).2
|}.

Definition sample_file : string := "C:\d\f.txt".

Definition sample_content : list Byte.byte := [Byte.x68; Byte.x69].

(** Three processes named [a.exe]; the second refuses to be killed. *)
Definition sample_processes : list process :=
  [Process 4 (Some "a.exe") KillOk; Process 8 (Some "b.exe") KillOk;
   Process 9 (Some "a.exe") KillDenied; Process 12 (Some "a.exe") KillOk].

Definition sample_world (opens : list open_outcome) : world :=
  World true sample_processes {[sample_file := sample_content]} {["C:\d"]}
        opens [InputLine ""].

(** The same machine without the file. *)
Definition sample_world_no_file (opens : list open_outcome) : world :=
  World true sample_processes ∅ {["C:\d"]} opens [InputLine ""].

(** The same machine when the directory cannot be opened. *)
Definition sample_world_no_dir : world :=
  World true sample_processes {[sample_file := sample_content]} ∅ [] [].

Definition sample_batches : list (list notification) :=
  [[(3, "g.txt")]; [(3, "f.txt"); (3, "f.txt")]; [(1, "f.txt")]].

(** ** Laws of the monad *)

Lemma run_eta {A} (r : run A) : r = Run (result r) (after r) (log r).
Proof. by destruct r. Qed.

Section BindLaws.
Context {A B : Type} (m : M A) (k : A → M B) (w : world).

Lemma bind_Ok a w' l :
  m w = Run (Ok a) w' l →
  bind m k w = Run (result (k a w')) (after (k a w')) (l ++ log (k a w')).
Proof. unfold bind. by intros ->. Qed.

Lemma bind_Raise e w' l :
  m w = Run (Raise e) w' l → bind m k w = Run (Raise e) w' l.
Proof. unfold bind. by intros ->. Qed.

Lemma bind_Blocked w' l :
  m w = Run Blocked w' l → bind m k w = Run Blocked w' l.
Proof. unfold bind. by intros ->. Qed.

Lemma log_bind :
  log (bind m k w) =
  log (m w) ++ match result (m w) with
               | Ok a => log (k a (after (m w)))
               | _ => []
               end.
Proof. unfold bind. destruct (result (m w)); simpl; by rewrite ?app_nil_r. Qed.

Lemma result_bind :
  result (bind m k w) =
  match result (m w) with
  | Ok a => result (k a (after (m w)))
  | Raise e => Raise e
  | Blocked => Blocked
  end.
Proof. unfold bind. by destruct (result (m w)). Qed.

Lemma after_bind :
  after (bind m k w) =
  match result (m w) with
  | Ok a => after (k a (after (m w)))
  | _ => after (m w)
  end.
Proof. unfold bind. by destruct (result (m w)). Qed.

End BindLaws.

(** ** The kill step *)

Lemma kill_loop_run process_name procs w :
  for_each procs (kill_body process_name) w =
  Run (kill_result (attempted process_name procs))
      (set_processes (reap (attempted process_name procs) (processes w)) w)
      (attempted process_name procs ≫= kill_events process_name).
Proof.
  revert w. induction procs as [|p procs IH]; intros w.
  - by destruct w.
  - cbn [for_each attempted]. unfold kill_body at 1.
    destruct (decide (name p = Some process_name)) as [Hn|Hn].
    + unfold proc_kill, kill_result. destruct p as [i nm [] ]; simpl in *.
      * unfold bind at 1. cbn. rewrite IH. cbn. reflexivity.
      * by destruct w.
      * by destruct w.
    + unfold bind at 1. cbn. rewrite IH. by destruct w.
Qed.

Lemma kill_process_by_name_run process_name w :
  kill_process_by_name process_name w =
  Run (kill_result (attempted process_name (processes w)))
      (set_processes
         (reap (attempted process_name (processes w)) (processes w)) w)
      (ECall F_kill_process_by_name process_name :: EProcessIter ::
       (attempted process_name (processes w) ≫= kill_events process_name)).
Proof.
  unfold kill_process_by_name, process_iter.
  change (λ proc : process, if decide (name proc = Some process_name) then _ else _)
    with (kill_body process_name).
  unfold bind. cbn. by rewrite kill_loop_run.
Qed.

Lemma attempted_matching process_name procs :
  Forall (λ p, on_kill p = KillOk) (matching process_name procs) →
  attempted process_name procs = matching process_name procs.
Proof.
  unfold matching. induction procs as [|p procs IH]; [done|].
  rewrite filter_cons. simpl. destruct (decide (name p = Some process_name)).
  - intros [Hp Hps]%Forall_cons. rewrite decide_True by done. by rewrite IH.
  - done.
Qed.

(** The calls stop at the first matching process whose call fails. *)
Lemma attempted_first_failure process_name procs pre p post :
  matching process_name procs = pre ++ p :: post →
  Forall (λ p, on_kill p = KillOk) pre →
  on_kill p ≠ KillOk →
  attempted process_name procs = pre ++ [p].
Proof.
  unfold matching. revert pre. induction procs as [|q procs IH]; intros pre.
  - by destruct pre.
  - rewrite filter_cons. simpl. destruct (decide (name q = Some process_name)).
    + destruct pre as [|q' pre]; simpl.
      * intros [= -> Hpost] _ Hp. by rewrite decide_False.
      * intros [= <- Hrest] [Hq Hpre]%Forall_cons Hp.
        rewrite decide_True by done. f_equal. by eapply IH.
    + apply IH.
Qed.

Lemma kill_result_ok ps :
  Forall (λ p, on_kill p = KillOk) ps → kill_result ps = Ok tt.
Proof.
  unfold kill_result. induction 1 as [|p ps Hp _ IH]; [done|].
  simpl. unfold kill_error at 1. by rewrite Hp.
Qed.

Lemma kill_result_failure pre p e :
  Forall (λ p, on_kill p = KillOk) pre →
  kill_error p = Some e →
  kill_result (pre ++ [p]) = Raise e.
Proof.
  unfold kill_result. induction 1 as [|q pre Hq _ IH]; simpl.
  - by intros ->.
  - intros Hp. unfold kill_error at 1. rewrite Hq. by apply IH.
Qed.

Lemma kill_error_is_Some p : on_kill p ≠ KillOk → is_Some (kill_error p).
Proof. unfold kill_error. destruct (on_kill p); [done|eauto..]. Qed.

Lemma kills_kill_events process_name ps :
  kills (ps ≫= kill_events process_name) = pid <$> ps.
Proof. unfold kills. induction ps as [|p ps IH]; [done|]. simpl. by f_equal. Qed.

Lemma kills_app l1 l2 : kills (l1 ++ l2) = kills l1 ++ kills l2.
Proof. apply omap_app. Qed.

(** ** The truncate step *)

(** One pass through the body of the retry loop. *)
Lemma clear_body_run path attempt w :
  clear_body path attempt w =
  match contention w 0 with
  | OpenOk => Run (Ok Break) (truncated path w) (success_events path)
  | OpenLocked => Run (Ok Next) (set_opens (tail (opens w)) w) (locked_events path)
  | OpenFails => Run (Raise (OSError path)) (set_opens (tail (opens w)) w) [EOpen path]
  end.
Proof.
  unfold contention, truncated. destruct w as [r ps fs ds os ins].
  destruct os as [|[] os]; cbn; try reflexivity;
    by rewrite alter_insert_eq.
Qed.

Lemma for_each_cons {A} (x : A) xs (body : A → M flow) w :
  for_each (x :: xs) body w =
  bind (body x) (λ c, match c with Next => for_each xs body | Break => ret tt end) w.
Proof. reflexivity. Qed.

Lemma contention_tail w k :
  contention (set_opens (tail (opens w)) w) k = contention w (S k).
Proof. unfold contention. simpl. by destruct (opens w). Qed.

Lemma clear_loop_free path xs x w :
  contention w 0 = OpenOk →
  for_each (x :: xs) (clear_body path) w =
  Run (Ok tt) (truncated path w) (success_events path).
Proof.
  intros Hfree. rewrite for_each_cons.
  erewrite bind_Ok by (rewrite clear_body_run, Hfree; reflexivity).
  by rewrite app_nil_r.
Qed.

Lemma clear_loop_locked path xs x w :
  contention w 0 = OpenLocked →
  for_each (x :: xs) (clear_body path) w =
  let r := for_each xs (clear_body path) (set_opens (tail (opens w)) w) in
  Run (result r) (after r) (locked_events path ++ log r).
Proof.
  intros Hlocked. rewrite for_each_cons.
  erewrite bind_Ok by (rewrite clear_body_run, Hlocked; reflexivity).
  reflexivity.
Qed.

Lemma clear_loop_fails path xs x w :
  contention w 0 = OpenFails →
  for_each (x :: xs) (clear_body path) w =
  Run (Raise (OSError path)) (set_opens (tail (opens w)) w) [EOpen path].
Proof.
  intros Hfails. rewrite for_each_cons.
  by erewrite bind_Raise by (rewrite clear_body_run, Hfails; reflexivity).
Qed.

Lemma clear_file_content_unfold path w :
  clear_file_content path w =
  let r := for_each (seq 0 max_retries) (clear_body path) w in
  Run (result r) (after r) (ECall F_clear_file_content path :: log r).
Proof. reflexivity. Qed.

Lemma clear_file_content_result_eq path w :
  result (clear_file_content path w) =
  result (for_each (seq 0 max_retries) (clear_body path) w).
Proof. reflexivity. Qed.

Lemma clear_file_content_after_eq path w :
  after (clear_file_content path w) =
  after (for_each (seq 0 max_retries) (clear_body path) w).
Proof. reflexivity. Qed.

(** The truncate step returns or raises [OSError]; it raises only when an
    attempt meets a failure other than a lock. *)
Lemma clear_loop_result path xs w :
  let r := for_each xs (clear_body path) w in
  (result r = Ok tt ∨ result r = Raise (OSError path)) ∧
  (OpenFails ∉ opens w → result r = Ok tt).
Proof.
  revert w. induction xs as [|x xs IH]; intros w; cbv zeta.
  - split; [by left|done].
  - destruct (contention w 0) eqn:Hc.
    + rewrite (clear_loop_free _ _ _ _ Hc). split; [by left|done].
    + rewrite (clear_loop_locked _ _ _ _ Hc). simpl.
      destruct (IH (set_opens (tail (opens w)) w)) as [Hres Hok].
      split; [done|]. intros Hnf. apply Hok. simpl.
      intros Hin. apply Hnf. destruct (opens w); [done|]. by right.
    + rewrite (clear_loop_fails _ _ _ _ Hc). split; [by right|].
      intros Hnf. exfalso. apply Hnf. unfold contention in Hc.
      destruct (opens w) as [|o os]; simpl in Hc; [done|]. subst o. by left.
Qed.

Lemma attempts_app path l1 l2 :
  attempts path (l1 ++ l2) = (attempts path l1 + attempts path l2)%nat.
Proof. unfold attempts. by rewrite filter_app, length_app. Qed.

Lemma attempts_cons_open path l : attempts path (EOpen path :: l) = S (attempts path l).
Proof. unfold attempts. by rewrite filter_cons_True. Qed.

Lemma attempts_cons_other path e l :
  e ≠ EOpen path → attempts path (e :: l) = attempts path l.
Proof. intros He. unfold attempts. by rewrite filter_cons_False. Qed.

Lemma attempts_locked_events path : attempts path (locked_events path) = 1%nat.
Proof.
  unfold locked_events. rewrite attempts_cons_open.
  by rewrite attempts_cons_other.
Qed.

Lemma attempts_success_events path : attempts path (success_events path) = 1%nat.
Proof.
  unfold success_events. rewrite attempts_cons_open.
  by rewrite !attempts_cons_other.
Qed.

Lemma attempts_locked_rounds path n :
  attempts path (concat (replicate n (locked_events path))) = n.
Proof.
  induction n as [|n IH]; [done|].
  change (concat (replicate (S n) (locked_events path)))
    with (locked_events path ++ concat (replicate n (locked_events path))).
  rewrite attempts_app, attempts_locked_events, IH. lia.
Qed.

(** [n] attempts that all meet the lock: [n] sleeps, the file untouched. *)
Lemma clear_loop_all_locked path xs w :
  (∀ k, (k < length xs)%nat → contention w k = OpenLocked) →
  for_each xs (clear_body path) w =
  Run (Ok tt) (set_opens (drop (length xs) (opens w)) w)
      (concat (replicate (length xs) (locked_events path))).
Proof.
  revert w. induction xs as [|x xs IH]; intros w Hlocked.
  - by destruct w.
  - rewrite clear_loop_locked by (apply Hlocked; simpl; lia).
    rewrite IH.
    + destruct w as [r ps fs ds [|o os] ins]; cbn; by rewrite ?drop_nil.
    + intros k Hk. rewrite contention_tail. apply Hlocked. simpl. lia.
Qed.

(** Locked attempts followed by a free one: the loop stops at the free one. *)
Lemma clear_loop_locked_then_free path pre x post w :
  (∀ k, (k < length pre)%nat → contention w k = OpenLocked) →
  contention w (length pre) = OpenOk →
  for_each (pre ++ x :: post) (clear_body path) w =
  Run (Ok tt)
      (truncated path (set_opens (drop (length pre) (opens w)) w))
      (concat (replicate (length pre) (locked_events path)) ++ success_events path).
Proof.
  revert w. induction pre as [|y pre IH]; intros w Hlocked Hfree.
  - cbn [app]. rewrite clear_loop_free by done.
    destruct w as [r ps fs ds os ins]. reflexivity.
  - cbn [app]. rewrite clear_loop_locked by (apply Hlocked; simpl; lia).
    rewrite IH.
    + destruct w as [r ps fs ds [|o os] ins]; unfold truncated; cbn;
        by rewrite ?drop_nil.
    + intros k Hk. rewrite contention_tail. apply Hlocked. simpl. lia.
    + by rewrite contention_tail.
Qed.

(** *** C4 *)

(** C4.  A file locked for the first 4 attempts and free on the 5th is
    truncated with exactly 5 attempts; a file locked on all attempts makes
    the step return without an error after exactly 5 attempts, each followed
    by a one-second sleep, with the files unchanged. *)
Theorem clear_file_content_retry_policy path w :
  ((∀ k, (k < 4)%nat → contention w k = OpenLocked) →
   contention w 4 = OpenOk →
   let r := clear_file_content path w in
   result r = Ok tt ∧
   attempts path (log r) = 5%nat ∧
   files (after r) !! path = Some [] ∧
   log r = ECall F_clear_file_content path ::
           concat (replicate 4 (locked_events path)) ++ success_events path) ∧
  ((∀ k, (k < 5)%nat → contention w k = OpenLocked) →
   let r := clear_file_content path w in
   result r = Ok tt ∧
   attempts path (log r) = 5%nat ∧
   files (after r) = files w ∧
   log r = ECall F_clear_file_content path ::
           concat (replicate 5 (locked_events path))).
Proof.
  split.
  - intros Hlocked Hfree r. subst r. rewrite clear_file_content_unfold.
    change (seq 0 max_retries) with ([0; 1; 2; 3] ++ 4 :: [])%nat.
    rewrite clear_loop_locked_then_free by done.
    cbn [result after log length]. repeat split.
    + rewrite attempts_cons_other by done.
      by rewrite attempts_app, attempts_locked_rounds, attempts_success_events.
    + unfold truncated. cbn. apply lookup_insert_eq.
  - intros Hlocked r. subst r. rewrite clear_file_content_unfold.
    rewrite clear_loop_all_locked by done.
    cbn [result after log]. repeat split.
    rewrite attempts_cons_other by done.
    by rewrite attempts_locked_rounds.
Qed.

(** ** The watcher *)

(** From here on the two steps are used through their run equations. *)
Opaque kill_process_by_name clear_file_content.

Section Watcher.
Context `{OsPath}.

Lemma on_notification_eq file_to_watch process_name action filename :
  on_notification file_to_watch process_name (action, filename) =
  if decide (filename = basename file_to_watch)
  then triggered file_to_watch process_name
  else ret Next.
Proof. reflexivity. Qed.

(** Two steps in sequence between a first event and a final flag write, for
    any two steps. *)
Lemma sequence_run (first last : event) (step1 step2 : M unit)
    (f : world → world) w :
  (emit first ;; step1 ;; step2 ;; emit last ;; modify f ;; ret Break) w =
  let r1 := step1 w in
  match result r1 with
  | Ok _ =>
      let r2 := step2 (after r1) in
      match result r2 with
      | Ok _ => Run (Ok Break) (f (after r2)) (first :: log r1 ++ log r2 ++ [last])
      | Raise e => Run (Raise e) (after r2) (first :: log r1 ++ log r2)
      | Blocked => Run Blocked (after r2) (first :: log r1 ++ log r2)
      end
  | Raise e => Run (Raise e) (after r1) (first :: log r1)
  | Blocked => Run Blocked (after r1) (first :: log r1)
  end.
Proof.
  unfold bind, emit, modify, ret. cbv zeta. cbn [result after log app].
  destruct (result (step1 w)); cbn [result after log app]; [|reflexivity..].
  destruct (result (step2 (after (step1 w)))); cbn [result after log app];
    reflexivity.
Qed.

Lemma sequence_log (first last : event) (step1 step2 : M unit)
    (f : world → world) w :
  log ((emit first ;; step1 ;; step2 ;; emit last ;; modify f ;; ret Break) w) =
  first :: log (step1 w) ++
  match result (step1 w) with
  | Ok _ =>
      log (step2 (after (step1 w))) ++
      match result (step2 (after (step1 w))) with
      | Ok _ => [last]
      | _ => []
      end
  | _ => []
  end.
Proof.
  rewrite sequence_run. cbv zeta.
  destruct (result (step1 w)); cbn [log]; [|by rewrite app_nil_r..].
  destruct (result (step2 (after (step1 w)))); cbn [log];
    by rewrite ?app_nil_r.
Qed.

Lemma triggered_run file_to_watch process_name w :
  triggered file_to_watch process_name w =
  let rk := kill_process_by_name process_name w in
  match result rk with
  | Ok _ =>
      let rc := clear_file_content file_to_watch (after rk) in
      match result rc with
      | Ok _ =>
          Run (Ok Break) (set_IS_RUNNING false (after rc))
              (EPrint (detected_msg file_to_watch) ::
               log rk ++ log rc ++ [ESetRunning false])
      | Raise e =>
          Run (Raise e) (after rc)
              (EPrint (detected_msg file_to_watch) :: log rk ++ log rc)
      | Blocked =>
          Run Blocked (after rc)
              (EPrint (detected_msg file_to_watch) :: log rk ++ log rc)
      end
  | Raise e => Run (Raise e) (after rk) (EPrint (detected_msg file_to_watch) :: log rk)
  | Blocked => Run Blocked (after rk) (EPrint (detected_msg file_to_watch) :: log rk)
  end.
Proof. apply sequence_run. Qed.

Lemma triggered_log file_to_watch process_name w :
  log (triggered file_to_watch process_name w) =
  EPrint (detected_msg file_to_watch) ::
  log (kill_process_by_name process_name w) ++
  match result (kill_process_by_name process_name w) with
  | Ok _ =>
      log (clear_file_content file_to_watch
             (after (kill_process_by_name process_name w))) ++
      match result (clear_file_content file_to_watch
                      (after (kill_process_by_name process_name w))) with
      | Ok _ => [ESetRunning false]
      | _ => []
      end
  | _ => []
  end.
Proof. apply sequence_log. Qed.

Lemma triggered_result file_to_watch process_name w :
  result (triggered file_to_watch process_name w) ≠ Ok Next.
Proof.
  rewrite triggered_run. cbv zeta.
  set (rk := kill_process_by_name process_name w).
  destruct (result rk); cbn [result]; [|discriminate..].
  set (rc := clear_file_content file_to_watch (after rk)).
  destruct (result rc); cbn [result]; discriminate.
Qed.

Lemma triggered_clears_flag file_to_watch process_name w c :
  result (triggered file_to_watch process_name w) = Ok c →
  IS_RUNNING (after (triggered file_to_watch process_name w)) = false.
Proof.
  rewrite triggered_run. cbv zeta.
  set (rk := kill_process_by_name process_name w).
  destruct (result rk); cbn [result after]; [|discriminate..].
  set (rc := clear_file_content file_to_watch (after rk)).
  destruct (result rc); cbn [result after]; [reflexivity|discriminate..].
Qed.

(** A batch without a notification for the file leaves everything as it is. *)
Lemma for_each_quiet file_to_watch process_name results w :
  ¬ Exists (names_target file_to_watch) results →
  for_each results (on_notification file_to_watch process_name) w = Run (Ok tt) w [].
Proof.
  induction results as [|[action filename] results IH]; intros Hquiet; [done|].
  rewrite for_each_cons, on_notification_eq.
  rewrite decide_False by (intros Heq; apply Hquiet; by left).
  unfold bind, ret. cbn [result after log app].
  rewrite IH; [reflexivity|]. intros Hex. apply Hquiet. by right.
Qed.

(** In a batch with a notification for the file the first such notification
    triggers, and the rest of the batch is dropped. *)
Lemma for_each_fires file_to_watch process_name results w :
  Exists (names_target file_to_watch) results →
  for_each results (on_notification file_to_watch process_name) w =
  finish (triggered file_to_watch process_name w).
Proof.
  induction results as [|[action filename] results IH]; intros Hfires.
  - by apply Exists_nil in Hfires.
  - rewrite for_each_cons, on_notification_eq.
    destruct (decide (filename = basename file_to_watch)) as [Heq|Hne].
    + unfold bind, finish.
      pose proof (triggered_result file_to_watch process_name w) as Hres.
      destruct (result (triggered file_to_watch process_name w)) as [[]| |];
        [done| |done..].
      cbn. by rewrite app_nil_r.
    + unfold bind, ret. cbn [result after log app].
      rewrite IH; [by destruct (triggered file_to_watch process_name w)|].
      apply Exists_cons in Hfires as [Hhd|Htl]; [done|done].
Qed.

Lemma watch_loop_stopped file_to_watch process_name batches w :
  IS_RUNNING w = false →
  watch_loop file_to_watch process_name batches w = Run (Ok tt) w [].
Proof. intros Hflag. destruct batches; unfold watch_loop, bind, get; cbn; by rewrite Hflag. Qed.

Lemma watch_loop_cons file_to_watch process_name results batches w :
  IS_RUNNING w = true →
  watch_loop file_to_watch process_name (results :: batches) w =
  let r := (for_each results (on_notification file_to_watch process_name) ;;
            watch_loop file_to_watch process_name batches) w in
  Run (result r) (after r) (EReadDirectoryChanges :: log r).
Proof.
  intros Hflag. cbn [watch_loop]. unfold bind at 1, get. cbn [result after log app].
  rewrite Hflag. unfold bind at 1, emit. reflexivity.
Qed.

(** The watcher started with the flag set: it blocks when no batch fires,
    and otherwise ends with the first notification that triggers. *)
Lemma watch_loop_run file_to_watch process_name batches w :
  IS_RUNNING w = true →
  watch_loop file_to_watch process_name batches w =
  if decide (fires file_to_watch batches) then
    let r := triggered file_to_watch process_name w in
    Run (result (finish r)) (after r)
        (replicate (reads file_to_watch batches) EReadDirectoryChanges ++ log r)
  else
    Run Blocked w (replicate (reads file_to_watch batches) EReadDirectoryChanges).
Proof.
  intros Hflag. unfold fires. induction batches as [|results batches IH].
  - rewrite decide_False by (by intros ?%Exists_nil).
    unfold watch_loop, bind, get, emit, block. cbn [result after log app].
    by rewrite Hflag.
  - rewrite watch_loop_cons by done. cbn [reads].
    destruct (decide (Exists (names_target file_to_watch) results)) as [Hhd|Hhd].
    + rewrite decide_True by (by left).
      unfold bind. rewrite for_each_fires by done. cbv zeta.
      pose proof (triggered_clears_flag file_to_watch process_name w) as Hclr.
      set (rt := triggered file_to_watch process_name w) in *.
      unfold finish. cbn [result after log].
      destruct (result rt) as [c| |]; cbn [result after log app];
        [|reflexivity..].
      rewrite watch_loop_stopped by (by eapply Hclr).
      cbn [result after log app]. by rewrite app_nil_r.
    + unfold bind. rewrite for_each_quiet by done. cbn [result after log app].
      rewrite IH.
      destruct (decide (Exists (Exists (names_target file_to_watch)) batches)) as [Htl|Htl].
      * rewrite decide_True by (by right). reflexivity.
      * rewrite decide_False; [reflexivity|].
        by intros [?|?]%Exists_cons.
Qed.

Lemma monitor_file_run file_to_watch process_name batches w :
  monitor_file file_to_watch process_name batches w =
  if decide (dirname file_to_watch ∈ dirs w) then
    let r := watch_loop file_to_watch process_name batches w in
    Run (result r) (after r)
        (ECall F_monitor_file file_to_watch ::
         ECreateFile (dirname file_to_watch) :: log r)
  else
    Run (Raise (WinError (dirname file_to_watch))) w
        [ECall F_monitor_file file_to_watch; ECreateFile (dirname file_to_watch)].
Proof.
  unfold monitor_file, CreateFile, bind, emit, get. cbn [result after log app].
  destruct (decide (dirname file_to_watch ∈ dirs w)); reflexivity.
Qed.

End Watcher.

(** ** Facts about logs *)

Lemma count_nil P : count P [] = 0%nat.
Proof. reflexivity. Qed.

Lemma count_app P l1 l2 : count P (l1 ++ l2) = (count P l1 + count P l2)%nat.
Proof. unfold count. by rewrite filter_app, length_app. Qed.

Lemma count_cons P e l :
  count P (e :: l) = ((if P e then 1 else 0) + count P l)%nat.
Proof.
  unfold count. rewrite filter_cons.
  destruct (P e); [by rewrite decide_True|by rewrite decide_False].
Qed.

(** A log made of events of a class [Q] disjoint from [P] has no [P]. *)
Lemma count_quiet (P Q : event → bool) l :
  (∀ e, Q e = true → P e = false) →
  Forall (λ e, Q e = true) l → count P l = 0%nat.
Proof.
  intros Hdisj. induction 1 as [|e l He _ IH]; [done|].
  by rewrite count_cons, (Hdisj e He), IH.
Qed.




(** The events of the kill step after its enumeration. *)
Lemma kill_events_inner process_name ps :
  Forall (λ e, kill_inner e = true) (ps ≫= kill_events process_name).
Proof. induction ps as [|p ps IH]; [done|]. simpl. by repeat constructor. Qed.

(** The events of the retry loop. *)
Lemma clear_loop_inner path xs w :
  Forall (λ e, clear_inner e = true) (log (for_each xs (clear_body path) w)).
Proof.
  revert w. induction xs as [|x xs IH]; intros w; [done|].
  destruct (contention w 0) eqn:Hc.
  - rewrite (clear_loop_free _ _ _ _ Hc). by repeat constructor.
  - rewrite (clear_loop_locked _ _ _ _ Hc). cbn [log].
    apply Forall_app. split; [by repeat constructor|apply IH].
  - rewrite (clear_loop_fails _ _ _ _ Hc). by repeat constructor.
Qed.

(** Every pass through the retry loop starts by opening the file. *)
Lemma clear_loop_opens path xs x w :
  (1 ≤ attempts path (log (for_each (x :: xs) (clear_body path) w)))%nat.
Proof.
  destruct (contention w 0) eqn:Hc.
  - rewrite (clear_loop_free _ _ _ _ Hc). cbn [log].
    rewrite attempts_success_events. lia.
  - rewrite (clear_loop_locked _ _ _ _ Hc). cbn [log].
    rewrite attempts_app, attempts_locked_events. lia.
  - rewrite (clear_loop_fails _ _ _ _ Hc). cbn [log].
    rewrite attempts_cons_open. lia.
Qed.

Lemma kill_process_by_name_log process_name w :
  ∃ ks, Forall (λ e, kill_inner e = true) ks ∧
        log (kill_process_by_name process_name w) =
          ECall F_kill_process_by_name process_name :: EProcessIter :: ks.
Proof.
  rewrite kill_process_by_name_run. cbn [log].
  eexists. split; [apply kill_events_inner|reflexivity].
Qed.

(** Every pass through the retry loop starts by opening the file. *)
Lemma clear_loop_head path x xs w :
  ∃ cs, Forall (λ e, clear_inner e = true) cs ∧
        log (for_each (x :: xs) (clear_body path) w) = EOpen path :: cs.
Proof.
  destruct (contention w 0) eqn:Hc.
  - rewrite (clear_loop_free _ _ _ _ Hc). cbn [log].
    eexists. split; [|reflexivity]. by repeat constructor.
  - rewrite (clear_loop_locked _ _ _ _ Hc). cbn [log].
    eexists. split; [|reflexivity].
    constructor; [done|]. apply clear_loop_inner.
  - rewrite (clear_loop_fails _ _ _ _ Hc). cbn [log].
    eexists. split; [|reflexivity]. constructor.
Qed.

Lemma clear_file_content_log path w :
  ∃ cs, Forall (λ e, clear_inner e = true) cs ∧
        log (clear_file_content path w) =
          ECall F_clear_file_content path :: EOpen path :: cs.
Proof.
  rewrite clear_file_content_unfold. cbv zeta. cbn [log].
  change (seq 0 max_retries) with (0%nat :: seq 1 4).
  destruct (clear_loop_head path 0%nat (seq 1 4) w) as (cs & Hcs & ->).
  by exists cs.
Qed.

Section WatcherLog.
Context `{OsPath}.

(** The log of the responder, and how far it got. *)
Lemma triggered_log_shape file_to_watch process_name w :
  ∃ ks cs p,
    Forall (λ e, kill_inner e = true) ks ∧
    Forall (λ e, clear_inner e = true) cs ∧
    p ≠ NotTriggered ∧
    log (triggered file_to_watch process_name w) =
      responder_log file_to_watch process_name ks cs p.
Proof.
  rewrite triggered_log.
  destruct (kill_process_by_name_log process_name w) as (ks & Hks & ->).
  generalize (after (kill_process_by_name process_name w)). intros wk.
  destruct (clear_file_content_log file_to_watch wk) as (cs & Hcs & ->).
  exists ks.
  destruct (result (kill_process_by_name process_name w)).
  - exists cs. destruct (result (clear_file_content file_to_watch wk)).
    + by exists Completed.
    + exists TruncateRaised. by rewrite app_nil_r.
    + exists TruncateRaised. by rewrite app_nil_r.
  - exists [], KillRaised. by rewrite app_nil_r.
  - exists [], KillRaised. by rewrite app_nil_r.
Qed.

(** The log of the watcher: its own events, then the responder's, if it
    was triggered; it is triggered when a batch fires. *)
Lemma monitor_file_log_shape file_to_watch process_name batches w :
  ∃ pre ks cs p,
    Forall (λ e, watch_inner e = true) pre ∧
    Forall (λ e, kill_inner e = true) ks ∧
    Forall (λ e, clear_inner e = true) cs ∧
    log (monitor_file file_to_watch process_name batches w) =
      pre ++ responder_log file_to_watch process_name ks cs p ∧
    (IS_RUNNING w = true → dirname file_to_watch ∈ dirs w →
     fires file_to_watch batches → p ≠ NotTriggered).
Proof.
  rewrite monitor_file_run.
  destruct (decide (dirname file_to_watch ∈ dirs w)) as [Hdir|Hdir].
  - cbv zeta. cbn [log]. destruct (IS_RUNNING w) eqn:Hflag.
    + rewrite watch_loop_run by done.
      destruct (decide (fires file_to_watch batches)) as [Hfires|Hquiet].
      * cbv zeta. cbn [log].
        destruct (triggered_log_shape file_to_watch process_name w)
          as (ks & cs & p & Hks & Hcs & Hp & ->).
        exists (ECall F_monitor_file file_to_watch ::
                ECreateFile (dirname file_to_watch) ::
                replicate (reads file_to_watch batches) EReadDirectoryChanges),
               ks, cs, p.
        split_and!; [|done|done|done|done].
        do 2 (constructor; [done|]). by apply Forall_replicate.
      * cbn [log].
        exists (ECall F_monitor_file file_to_watch ::
                ECreateFile (dirname file_to_watch) ::
                replicate (reads file_to_watch batches) EReadDirectoryChanges),
               [], [], NotTriggered.
        split_and!; [|done|done|by rewrite app_nil_r|done].
        do 2 (constructor; [done|]). by apply Forall_replicate.
    + rewrite watch_loop_stopped by done. cbn [log].
      exists [ECall F_monitor_file file_to_watch; ECreateFile (dirname file_to_watch)],
             [], [], NotTriggered.
      split_and!; [by repeat constructor|done|done|done|done].
  - cbn [log].
    exists [ECall F_monitor_file file_to_watch; ECreateFile (dirname file_to_watch)],
           [], [], NotTriggered.
    split_and!; [by repeat constructor|done|done|done|done].
Qed.

(** Facts about logs of that shape. *)
Section Shape.
Variables (file_to_watch process_name : string).
Variables (pre ks cs : list event) (p : progress).
Hypothesis Hpre : Forall (λ e, watch_inner e = true) pre.
Hypothesis Hks : Forall (λ e, kill_inner e = true) ks.
Hypothesis Hcs : Forall (λ e, clear_inner e = true) cs.

Let l := pre ++ responder_log file_to_watch process_name ks cs p.

Ltac disjoint :=
  first [ assumption
        | let e := fresh "e" in
          intros e; destruct e; try done;
          repeat match goal with f : func |- _ => destruct f end; done ].

Ltac count_shape :=
  subst l; rewrite count_app, (count_quiet _ watch_inner) by disjoint;
  destruct p; cbn [responder_log];
  rewrite ?count_cons, ?count_app, ?count_cons, ?count_app, ?count_cons, ?count_nil;
  rewrite ?(count_quiet _ kill_inner ks), ?(count_quiet _ clear_inner cs)
    by disjoint;
  simpl; lia.

Lemma shape_flag_writes : (count is_flag_write l ≤ 1)%nat.
Proof. count_shape. Qed.

Lemma shape_kill_calls : (count is_kill_call l ≤ 1)%nat.
Proof. count_shape. Qed.

Lemma shape_clear_calls : (count is_clear_call l ≤ 1)%nat.
Proof. count_shape. Qed.

Lemma shape_enumerations : (count is_enumeration l ≤ 1)%nat.
Proof. count_shape. Qed.








End Shape.

(** *** C2 *)


(** *** C3 *)

(** C3.  Whatever batches arrive, the watcher writes the flag at most once
    and enters the kill step and the truncate step at most once each. *)
Theorem responder_runs_at_most_once file_to_watch process_name batches w :
  let l := log (monitor_file file_to_watch process_name batches w) in
  (count is_flag_write l ≤ 1)%nat ∧
  (count is_kill_call l ≤ 1)%nat ∧
  (count is_enumeration l ≤ 1)%nat ∧
  (count is_clear_call l ≤ 1)%nat.
Proof.
  cbv zeta.
  destruct (monitor_file_log_shape file_to_watch process_name batches w)
    as (pre & ks & cs & p & Hpre & Hks & Hcs & -> & _).
  split_and!.
  - by apply shape_flag_writes.
  - by apply shape_kill_calls.
  - by apply shape_enumerations.
  - by apply shape_clear_calls.
Qed.

(** *** C7 *)

(** C7.  A notification whose file name differs from the base name of the
    watched path does nothing: no event, no change, the loop goes on.  A
    watcher that only receives such notifications never enters the kill
    step or the truncate step, never writes the flag and leaves the
    world as it was. *)
Theorem other_names_never_trigger file_to_watch process_name :
  (∀ action filename w,
     filename ≠ basename file_to_watch →
     on_notification file_to_watch process_name (action, filename) w =
     Run (Ok Next) w []) ∧
  (∀ batches w,
     Forall (Forall (λ n, n.2 ≠ basename file_to_watch)) batches →
     let r := monitor_file file_to_watch process_name batches w in
     after r = w ∧
     Forall (λ e, watch_inner e = true) (log r) ∧
     count is_kill_call (log r) = 0%nat ∧
     count is_clear_call (log r) = 0%nat ∧
     count is_flag_write (log r) = 0%nat).
Proof.
  split.
  - intros action filename w Hne. rewrite on_notification_eq.
    by rewrite decide_False.
  - intros batches w Hquiet r.
    assert (¬ fires file_to_watch batches) as Hnf.
    { unfold fires. induction Hquiet as [|b bs Hb _ IH]; [by intros ?%Exists_nil|].
      intros [Hex|Hex]%Exists_cons; [|done].
      apply Exists_exists in Hex as (n & Hin & Hn).
      by eapply Forall_forall in Hb. }
    assert (after r = w ∧ Forall (λ e, watch_inner e = true) (log r)) as [Hw Hlog].
    { subst r. rewrite monitor_file_run.
      destruct (decide (dirname file_to_watch ∈ dirs w)); [|by repeat constructor].
      cbv zeta. cbn [after log]. destruct (IS_RUNNING w) eqn:Hflag.
      - rewrite watch_loop_run, decide_False by done. cbn [after log].
        split; [done|]. do 2 (constructor; [done|]). by apply Forall_replicate.
      - rewrite watch_loop_stopped by done. by repeat constructor. }
    split_and!; [done|done|..];
      apply (count_quiet _ watch_inner); try done;
      intros e; destruct e; try done;
      repeat match goal with f : func |- _ => destruct f end; done.
Qed.

End WatcherLog.

(** ** The steps, case by case *)

Lemma kill_step_ok process_name w :
  Forall (λ p, on_kill p = KillOk) (matching process_name (processes w)) →
  kill_process_by_name process_name w =
  Run (Ok tt)
      (set_processes (reap (matching process_name (processes w)) (processes w)) w)
      (ECall F_kill_process_by_name process_name :: EProcessIter ::
       (matching process_name (processes w) ≫= kill_events process_name)).
Proof.
  intros Hok. rewrite kill_process_by_name_run.
  by rewrite attempted_matching, kill_result_ok.
Qed.

Lemma kill_step_fails process_name w pre p post e :
  matching process_name (processes w) = pre ++ p :: post →
  Forall (λ p, on_kill p = KillOk) pre →
  kill_error p = Some e →
  kill_process_by_name process_name w =
  Run (Raise e)
      (set_processes (reap (pre ++ [p]) (processes w)) w)
      (ECall F_kill_process_by_name process_name :: EProcessIter ::
       ((pre ++ [p]) ≫= kill_events process_name)).
Proof.
  intros Hm Hpre He. rewrite kill_process_by_name_run.
  rewrite (attempted_first_failure _ _ pre p post) by
    (done || (unfold kill_error in He; by destruct (on_kill p))).
  by rewrite (kill_result_failure pre p e).
Qed.

Lemma clear_file_content_free path w :
  contention w 0 = OpenOk →
  clear_file_content path w =
  Run (Ok tt) (truncated path w) (ECall F_clear_file_content path :: success_events path).
Proof.
  intros Hfree. rewrite clear_file_content_unfold.
  change (seq 0 max_retries) with (0%nat :: seq 1 4).
  by rewrite clear_loop_free.
Qed.

Lemma truncated_lookup path w : files (truncated path w) !! path = Some [].
Proof. unfold truncated. cbn [files set_files]. apply lookup_insert_eq. Qed.

Lemma clear_file_content_result path w :
  OpenFails ∉ opens w → result (clear_file_content path w) = Ok tt.
Proof.
  intros Hnf.
  pose proof (clear_loop_result path (seq 0 max_retries) w) as Hres.
  cbv zeta in Hres. destruct Hres as [_ Hres].
  rewrite clear_file_content_result_eq. exact (Hres Hnf).
Qed.

Lemma attempts_le_count path l : (attempts path l ≤ count is_open l)%nat.
Proof.
  induction l as [|e l IH]; [done|]. rewrite count_cons.
  destruct (decide (e = EOpen path)) as [->|Hne].
  - rewrite attempts_cons_open. simpl. lia.
  - rewrite attempts_cons_other by done. lia.
Qed.

Lemma kills_quiet (Q : event → bool) l :
  (∀ e, Q e = true → is_kill e = false) →
  Forall (λ e, Q e = true) l → kills l = [].
Proof.
  intros Hdisj. unfold kills. induction 1 as [|e l He _ IH]; [done|].
  specialize (Hdisj e He). destruct e; try done; exact IH.
Qed.

Lemma kills_kill_log process_name ps :
  kills (ECall F_kill_process_by_name process_name :: EProcessIter ::
         (ps ≫= kill_events process_name)) = pid <$> ps.
Proof. apply (kills_kill_events process_name ps). Qed.

Lemma kills_clear_log path w : kills (log (clear_file_content path w)) = [].
Proof.
  destruct (clear_file_content_log path w) as (cs & Hcs & ->).
  change (kills (ECall F_clear_file_content path :: EOpen path :: cs)) with (kills cs).
  apply (kills_quiet clear_inner); [|done]. by intros [].
Qed.

Lemma attempts_clear_log path w :
  (1 ≤ attempts path (log (clear_file_content path w)))%nat.
Proof.
  destruct (clear_file_content_log path w) as (cs & Hcs & ->).
  rewrite attempts_cons_other, attempts_cons_open by done. lia.
Qed.

Lemma count_kill_log (P : event → bool) process_name ps :
  (∀ e, kill_inner e = true → P e = false) →
  P (ECall F_kill_process_by_name process_name) = false →
  P EProcessIter = false →
  count P (ECall F_kill_process_by_name process_name :: EProcessIter ::
           (ps ≫= kill_events process_name)) = 0%nat.
Proof.
  intros Hdisj H1 H2. rewrite !count_cons, H1, H2.
  rewrite (count_quiet _ kill_inner); [done|done|apply kill_events_inner].
Qed.

(** *** C6 *)

(** C6 (amended).  When no termination call on a matching process fails,
    the kill step issues exactly one termination call per process whose
    name equals the selector's, in table order, and returns; with no
    matching process it issues no call and returns. *)
Theorem kill_step_calls process_name w :
  Forall (λ p, on_kill p = KillOk) (matching process_name (processes w)) →
  let r := kill_process_by_name process_name w in
  result r = Ok tt ∧
  kills (log r) = pid <$> matching process_name (processes w) ∧
  length (kills (log r)) = length (matching process_name (processes w)) ∧
  (matching process_name (processes w) = [] → kills (log r) = []).
Proof.
  intros Hok r. subst r. rewrite kill_step_ok by done. cbn [result log].
  rewrite kills_kill_log. split_and!; [done|done|by rewrite length_fmap|].
  by intros ->.
Qed.

(** The calls of the kill step in general: the matching processes up to and
    including the first whose call fails, and that failure propagates. *)
Lemma kill_step_calls_until_failure process_name w pre p post e :
  matching process_name (processes w) = pre ++ p :: post →
  Forall (λ p, on_kill p = KillOk) pre →
  kill_error p = Some e →
  let r := kill_process_by_name process_name w in
  result r = Raise e ∧ kills (log r) = pid <$> (pre ++ [p]).
Proof.
  intros Hm Hpre He r. subst r.
  rewrite (kill_step_fails _ _ pre p post e) by done. cbn [result log].
  by rewrite kills_kill_log.
Qed.

Section Responder.
Context `{OsPath}.

(** *** C1 *)

(** C1 (amended).  When no kill attempt fails and no [open] fails for a
    reason other than a lock, the responder completes: every matching
    process received its call, the truncate step opened the file at least
    once and the flag is cleared.  A kill attempt that fails is not caught:
    the responder ends with that exception, the later matching processes
    receive no call, the truncate step is not entered and the flag keeps its
    value. *)
Theorem responder_completes file_to_watch process_name w :
  (Forall (λ p, on_kill p = KillOk) (matching process_name (processes w)) →
   OpenFails ∉ opens w →
   let r := triggered file_to_watch process_name w in
   result r = Ok Break ∧
   kills (log r) = pid <$> matching process_name (processes w) ∧
   (1 ≤ attempts file_to_watch (log r))%nat ∧
   IS_RUNNING (after r) = false) ∧
  (∀ pre p post e,
     matching process_name (processes w) = pre ++ p :: post →
     Forall (λ p, on_kill p = KillOk) pre →
     kill_error p = Some e →
     let r := triggered file_to_watch process_name w in
     result r = Raise e ∧
     kills (log r) = pid <$> (pre ++ [p]) ∧
     count is_clear_call (log r) = 0%nat ∧
     count is_open (log r) = 0%nat ∧
     IS_RUNNING (after r) = IS_RUNNING w).
Proof.
  split.
  - intros Hkills Hopens r. subst r.
    rewrite triggered_run, kill_step_ok by done. cbv zeta. cbn [result after log].
    set (wk := set_processes _ w).
    pose proof (clear_file_content_result file_to_watch wk Hopens) as Hres.
    pose proof (kills_clear_log file_to_watch wk) as Hk.
    pose proof (attempts_clear_log file_to_watch wk) as Ha.
    destruct (clear_file_content file_to_watch wk) as [resc wc lc].
    cbn [result after log] in *. subst resc. cbn [result after log].
    split_and!; [done| | |done].
    + change (kills (?e :: ?l)) with (kills l).
      rewrite !kills_app, kills_kill_log, Hk. cbn.
      by rewrite app_nil_r.
    + rewrite attempts_cons_other by done.
      rewrite !attempts_app. lia.
  - intros pre p post e Hm Hpre He r. subst r.
    rewrite triggered_run, (kill_step_fails _ _ pre p post e) by done.
    cbv zeta. cbn [result after log]. split_and!; [done| | |..|done].
    + change (kills (?e :: ?l)) with (kills l). apply kills_kill_log.
    + rewrite count_cons. cbn [is_clear_call].
      by rewrite count_kill_log by (done || by intros []).
    + rewrite count_cons. cbn [is_open].
      by rewrite count_kill_log by (done || by intros []).
Qed.

(** The watcher whose directory opens, whose flag is set and which receives
    a notification for the file: its run is the responder's. *)
Lemma monitor_file_fires file_to_watch process_name batches w :
  IS_RUNNING w = true →
  dirname file_to_watch ∈ dirs w →
  fires file_to_watch batches →
  result (monitor_file file_to_watch process_name batches w) =
    result (finish (triggered file_to_watch process_name w)) ∧
  after (monitor_file file_to_watch process_name batches w) =
    after (triggered file_to_watch process_name w).
Proof.
  intros Hflag Hdir Hfires.
  rewrite monitor_file_run, decide_True by done. cbv zeta.
  rewrite watch_loop_run, decide_True by done. cbv zeta.
  split; reflexivity.
Qed.

(** The responder when no kill attempt fails and the first [open] is
    granted. *)
Lemma triggered_free file_to_watch process_name w :
  Forall (λ p, on_kill p = KillOk) (matching process_name (processes w)) →
  contention w 0 = OpenOk →
  result (triggered file_to_watch process_name w) = Ok Break ∧
  ∃ w', after (triggered file_to_watch process_name w) =
        set_IS_RUNNING false (truncated file_to_watch w').
Proof.
  intros Hkills Hfree.
  rewrite triggered_run, kill_step_ok by done. cbv zeta. cbn [result after log].
  set (wk := set_processes _ w).
  assert (contention wk 0 = OpenOk) as Hfree' by exact Hfree.
  rewrite (clear_file_content_free file_to_watch wk Hfree').
  cbn [result after log]. split; [reflexivity|by exists wk].
Qed.

(** *** C5 *)

(** C5 (amended).  When a notification for the watched file arrives, no
    kill attempt fails and the first [open] is not refused, the watcher
    returns with the file still there and empty, and the flag cleared. *)
Theorem watcher_truncates_file file_to_watch process_name batches w content :
  IS_RUNNING w = true →
  dirname file_to_watch ∈ dirs w →
  fires file_to_watch batches →
  files w !! file_to_watch = Some content →
  contention w 0 = OpenOk →
  Forall (λ p, on_kill p = KillOk) (matching process_name (processes w)) →
  let r := monitor_file file_to_watch process_name batches w in
  result r = Ok tt ∧
  files (after r) !! file_to_watch = Some [] ∧
  IS_RUNNING (after r) = false.
Proof.
  intros Hflag Hdir Hfires Hfile Hfree Hkills r. subst r.
  destruct (monitor_file_fires file_to_watch process_name batches w)
    as [-> ->]; [done..|].
  destruct (triggered_free file_to_watch process_name w) as [Hres [w' Hw']];
    [done..|].
  unfold finish. cbn [result]. rewrite Hres, Hw'.
  split_and!; [reflexivity| |reflexivity].
  apply truncated_lookup.
Qed.

End Responder.

(** ** The foreground controller *)








(** *** C8 *)

(** C8.  [sys.argv] holds the program name and the positional arguments.
    When it does not have exactly three entries, that is two positional
    arguments, the program prints the usage line and exits with status 1;
    it does nothing else: no thread is started, no directory is opened. *)
Theorem wrong_arity_exits argv sleeps w :
  length argv ≠ 3%nat →
  let r := main argv sleeps w in
  result r = Raise (SystemExit 1) ∧
  exit_code (result r) = Some 1 ∧
  log r = [EPrint usage_msg] ∧
  after r = w.
Proof.
  intros Harity r. subst r. unfold main.
  destruct (decide (length argv ≠ 3%nat)); [|done].
  unfold bind at 1. split_and!; reflexivity.
Qed.

(** *** C9 *)


(** ** Further properties of the truncate step *)

Lemma count_locked_rounds (P : event → bool) path n :
  count P (concat (replicate n (locked_events path))) =
  (n * count P (locked_events path))%nat.
Proof.
  induction n as [|n IH]; [done|].
  change (concat (replicate (S n) (locked_events path)))
    with (locked_events path ++ concat (replicate n (locked_events path))).
  rewrite count_app, IH. lia.
Qed.

Lemma sleeps_locked_events path : count is_sleep (locked_events path) = 1%nat.
Proof. unfold locked_events. by rewrite !count_cons, count_nil. Qed.

Lemma sleeps_success_events path : count is_sleep (success_events path) = 0%nat.
Proof. unfold success_events. by rewrite !count_cons, count_nil. Qed.

Lemma prints_app l1 l2 : prints (l1 ++ l2) = prints l1 ++ prints l2.
Proof. apply omap_app. Qed.

Lemma prints_locked_rounds path n :
  prints (concat (replicate n (locked_events path))) = [].
Proof.
  induction n as [|n IH]; [done|].
  change (concat (replicate (S n) (locked_events path)))
    with (locked_events path ++ concat (replicate n (locked_events path))).
  by rewrite prints_app, IH.
Qed.

(** The attempts of the retry loop, split at the [k]-th. *)
Lemma retries_split k :
  (k < max_retries)%nat →
  seq 0 max_retries = seq 0 k ++ k :: seq (S k) (max_retries - S k).
Proof.
  intros Hk. unfold max_retries in *.
  do 5 (destruct k as [|k]; [reflexivity|]). lia.
Qed.

(** Locked attempts followed by one that fails otherwise. *)
Lemma clear_loop_locked_then_fails path pre x post w :
  (∀ k, (k < length pre)%nat → contention w k = OpenLocked) →
  contention w (length pre) = OpenFails →
  for_each (pre ++ x :: post) (clear_body path) w =
  Run (Raise (OSError path))
      (set_opens (drop (S (length pre)) (opens w)) w)
      (concat (replicate (length pre) (locked_events path)) ++ [EOpen path]).
Proof.
  revert w. induction pre as [|y pre IH]; intros w Hlocked Hfails.
  - cbn [app]. rewrite clear_loop_fails by done.
    destruct w as [r ps fs ds [|o os] ins]; reflexivity.
  - cbn [app]. rewrite clear_loop_locked by (apply Hlocked; simpl; lia).
    rewrite IH.
    + destruct w as [r ps fs ds [|o os] ins]; cbn; by rewrite ?drop_nil.
    + intros k Hk. rewrite contention_tail. apply Hlocked. simpl. lia.
    + by rewrite contention_tail.
Qed.

(** X3.  A file locked for the first [k] attempts, [k < 5], and free at
    the next is truncated at attempt [k + 1], after [k] sleeps, and the
    success line is the only line printed. *)
Theorem retry_succeeds_after_locks path w k :
  (k < max_retries)%nat →
  (∀ j, (j < k)%nat → contention w j = OpenLocked) →
  contention w k = OpenOk →
  let r := clear_file_content path w in
  result r = Ok tt ∧
  attempts path (log r) = S k ∧
  count is_sleep (log r) = k ∧
  files (after r) !! path = Some [] ∧
  prints (log r) = [corrupted_msg path].
Proof.
  intros Hk Hlocked Hfree r. subst r.
  rewrite clear_file_content_unfold, (retries_split k Hk).
  rewrite clear_loop_locked_then_free; rewrite ?length_seq; [|done..].
  cbn [result after log]. split_and!.
  - done.
  - rewrite attempts_cons_other by done.
    rewrite attempts_app, attempts_locked_rounds, attempts_success_events. lia.
  - rewrite count_cons, count_app, count_locked_rounds.
    rewrite sleeps_locked_events, sleeps_success_events. cbn [is_sleep]. lia.
  - apply truncated_lookup.
  - change (prints (?e :: ?l)) with (prints l).
    by rewrite prints_app, prints_locked_rounds.
Qed.

(** X5.  Only the lock is retried: when an attempt within the bound fails
    for another reason, that error propagates at once; the files are
    unchanged and nothing is printed. *)
Theorem other_open_errors_propagate path w k :
  (k < max_retries)%nat →
  (∀ j, (j < k)%nat → contention w j = OpenLocked) →
  contention w k = OpenFails →
  let r := clear_file_content path w in
  result r = Raise (OSError path) ∧
  attempts path (log r) = S k ∧
  files (after r) = files w ∧
  prints (log r) = [].
Proof.
  intros Hk Hlocked Hfails r. subst r.
  rewrite clear_file_content_unfold, (retries_split k Hk).
  rewrite clear_loop_locked_then_fails; rewrite ?length_seq; [|done..].
  cbn [result after log]. split_and!.
  - done.
  - rewrite attempts_cons_other by done.
    rewrite attempts_app, attempts_locked_rounds, attempts_cons_open. cbn. lia.
  - done.
  - change (prints (?e :: ?l)) with (prints l).
    by rewrite prints_app, prints_locked_rounds.
Qed.

Lemma clear_loop_bounds path xs w :
  let l := log (for_each xs (clear_body path) w) in
  (attempts path l ≤ length xs)%nat ∧ (count is_sleep l ≤ attempts path l)%nat.
Proof.
  cbv zeta. revert w. induction xs as [|x xs IH]; intros w.
  - cbn [for_each]. unfold ret. cbn [log length]. rewrite count_nil.
    change (attempts path []) with 0%nat. lia.
  - destruct (contention w 0) eqn:Hc.
    + rewrite (clear_loop_free _ _ _ _ Hc). cbn [log length].
      rewrite attempts_success_events, sleeps_success_events. lia.
    + rewrite (clear_loop_locked _ _ _ _ Hc). cbn [log length].
      rewrite attempts_app, attempts_locked_events, count_app.
      destruct (IH (set_opens (tail (opens w)) w)) as [Ha Hs].
      rewrite sleeps_locked_events. lia.
    + rewrite (clear_loop_fails _ _ _ _ Hc). cbn [log length].
      rewrite attempts_cons_open, count_cons, count_nil. cbn [is_sleep].
      change (attempts path []) with 0%nat. lia.
Qed.

(** X4.  Whatever the contention, the truncate step opens the file at
    least once and at most five times, and never sleeps more often than it
    opens. *)
Theorem retry_is_bounded path w :
  let l := log (clear_file_content path w) in
  (1 ≤ attempts path l)%nat ∧
  (attempts path l ≤ 5)%nat ∧
  (count is_sleep l ≤ attempts path l)%nat.
Proof.
  cbv zeta. pose proof (attempts_clear_log path w) as Hone.
  rewrite clear_file_content_unfold in *. cbv zeta in *. cbn [log] in *.
  rewrite attempts_cons_other in * by done. rewrite count_cons.
  destruct (clear_loop_bounds path (seq 0 max_retries) w) as [Ha Hs].
  rewrite length_seq in Ha. cbn [is_sleep].
  assert (max_retries = 5%nat) as Hmax by reflexivity. lia.
Qed.

Lemma clear_loop_frame path xs w :
  let r := for_each xs (clear_body path) w in
  IS_RUNNING (after r) = IS_RUNNING w ∧
  processes (after r) = processes w ∧
  dirs (after r) = dirs w ∧
  stdin (after r) = stdin w ∧
  ∀ other, other ≠ path → files (after r) !! other = files w !! other.
Proof.
  cbv zeta. revert w. induction xs as [|x xs IH]; intros w; [done|].
  destruct (contention w 0) eqn:Hc.
  - rewrite (clear_loop_free _ _ _ _ Hc). cbn [after]. unfold truncated.
    split_and!; [done..|]. intros other Hne. cbn [files set_files set_opens].
    by rewrite lookup_insert_ne.
  - rewrite (clear_loop_locked _ _ _ _ Hc). cbn [after].
    apply (IH (set_opens (tail (opens w)) w)).
  - rewrite (clear_loop_fails _ _ _ _ Hc). done.
Qed.

(** X6.  The truncate step touches nothing but the watched file: the flag,
    the process table and every other file are as before, whether it
    succeeds, gives up or raises. *)
Theorem truncate_step_frame path w :
  let r := clear_file_content path w in
  IS_RUNNING (after r) = IS_RUNNING w ∧
  processes (after r) = processes w ∧
  ∀ other, other ≠ path → files (after r) !! other = files w !! other.
Proof.
  cbv zeta.
  pose proof (clear_loop_frame path (seq 0 max_retries) w) as Hframe.
  cbv zeta in Hframe. destruct Hframe as (Hflag & Hprocs & _ & _ & Hfiles).
  rewrite clear_file_content_after_eq.
  split_and!; [exact Hflag|exact Hprocs|exact Hfiles].
Qed.

(** *** C10 *)

(** C10 (amended).  When the watched file does not exist, the truncate
    step creates it, empty, at the first attempt whose [open] is granted:
    at the first attempt when nothing refuses the open, at attempt [k + 1]
    when a lock refuses the first [k < 5].  The file is new (the file
    system holds one file more), the success line is the only line printed
    and nothing says that the file was missing.  When a lock refuses all
    five attempts the step returns, no file is created and nothing is
    printed. *)
Theorem missing_file_created_at_granted_open path w :
  files w !! path = None →
  (∀ k, (k < max_retries)%nat →
     (∀ j, (j < k)%nat → contention w j = OpenLocked) →
     contention w k = OpenOk →
     let r := clear_file_content path w in
     result r = Ok tt ∧
     attempts path (log r) = S k ∧
     files (after r) !! path = Some [] ∧
     size (files (after r)) = S (size (files w)) ∧
     prints (log r) = [corrupted_msg path]) ∧
  ((∀ j, (j < max_retries)%nat → contention w j = OpenLocked) →
   let r := clear_file_content path w in
   result r = Ok tt ∧
   attempts path (log r) = max_retries ∧
   files (after r) !! path = None ∧
   prints (log r) = []).
Proof.
  intros Hmissing. split.
  - intros k Hk Hlocked Hfree r. subst r.
    rewrite clear_file_content_unfold, (retries_split k Hk).
    rewrite clear_loop_locked_then_free; rewrite ?length_seq; [|done..].
    cbn [result after log]. split_and!.
    + done.
    + rewrite attempts_cons_other by done.
      rewrite attempts_app, attempts_locked_rounds, attempts_success_events. lia.
    + apply truncated_lookup.
    + unfold truncated. cbn [files set_files set_opens].
      by apply map_size_insert_None.
    + change (prints (?e :: ?l)) with (prints l).
      by rewrite prints_app, prints_locked_rounds.
  - intros Hlocked r. subst r. rewrite clear_file_content_unfold.
    rewrite clear_loop_all_locked; rewrite ?length_seq; [|done].
    cbn [result after log]. split_and!.
    + done.
    + rewrite attempts_cons_other by done. by rewrite attempts_locked_rounds.
    + done.
    + change (prints (?e :: ?l)) with (prints l). apply prints_locked_rounds.
Qed.

(** ** Further properties of the kill step *)

Lemma attempted_sublist process_name procs p :
  p ∈ attempted process_name procs →
  p ∈ procs ∧ name p = Some process_name.
Proof.
  induction procs as [|q procs IH]; [by intros ?%elem_of_nil|].
  cbn [attempted]. destruct (decide (name q = Some process_name)) as [Hq|Hq].
  - intros [->|Hin]%elem_of_cons; [split; [by left|done]|].
    destruct (decide (on_kill q = KillOk)); [|by apply elem_of_nil in Hin].
    destruct (IH Hin). split; [by right|done].
  - intros Hin. destruct (IH Hin). split; [by right|done].
Qed.

(** X2.  The kill step calls [kill] only on processes of the table whose
    name is the selector's; a process with another name, or whose name
    psutil could not read, never receives a call. *)
Theorem kill_step_only_matching process_name w p :
  p ∈ kills (log (kill_process_by_name process_name w)) →
  ∃ proc, proc ∈ processes w ∧ pid proc = p ∧ name proc = Some process_name.
Proof.
  rewrite kill_process_by_name_run. cbn [log]. rewrite kills_kill_log.
  intros (proc & -> & Hin)%list_elem_of_fmap.
  apply attempted_sublist in Hin as [Hin Hname]. by exists proc.
Qed.

Lemma reap_keeps ps table q :
  q ∈ table → (∀ p, p ∈ ps → pid p ≠ pid q) → q ∈ reap ps table.
Proof.
  unfold reap. revert table. induction ps as [|p ps IH]; intros table Hq Hpids; [done|].
  cbn [foldl]. apply IH.
  - destruct (decide (on_kill p = KillOk)); [|done].
    apply list_elem_of_filter. split; [|done].
    intros Heq. by apply (Hpids p); [left|].
  - intros p' Hp'. apply Hpids. by right.
Qed.

Lemma NoDup_fmap_eq {A B} (f : A → B) (l : list A) x y :
  NoDup (f <$> l) → x ∈ l → y ∈ l → f x = f y → x = y.
Proof.
  induction l as [|a l IH]; [by intros _ ?%elem_of_nil|].
  rewrite fmap_cons. intros [Hnotin Hnd]%NoDup_cons.
  intros [->|Hx]%elem_of_cons [->|Hy]%elem_of_cons Heq.
  - done.
  - exfalso. apply Hnotin. rewrite Heq. by apply list_elem_of_fmap_2.
  - exfalso. apply Hnotin. rewrite <- Heq. by apply list_elem_of_fmap_2.
  - by apply IH.
Qed.

(** X9.  The kill step leaves the files, the flag and the pending opens as
    they are; in a table without repeated identifiers every process whose
    name differs from the selector's is still there afterwards. *)
Theorem kill_step_frame process_name w :
  let r := kill_process_by_name process_name w in
  files (after r) = files w ∧
  IS_RUNNING (after r) = IS_RUNNING w ∧
  opens (after r) = opens w ∧
  (NoDup (pid <$> processes w) →
   ∀ q, q ∈ processes w → name q ≠ Some process_name →
        q ∈ processes (after r)).
Proof.
  cbv zeta. rewrite kill_process_by_name_run. cbn [after].
  split_and!; [done..|]. intros Hnd q Hq Hname.
  cbn [processes set_processes]. apply reap_keeps; [done|].
  intros p Hp Heq. apply attempted_sublist in Hp as [Hp Hpname].
  assert (p = q) as -> by by eapply (NoDup_fmap_eq pid).
  done.
Qed.

(** ** Further properties of the watcher *)

Section WatcherMore.
Context `{OsPath}.

(** X1.  When the directory of the watched path cannot be opened,
    [monitor_file] raises from [CreateFile]: it reads no notification,
    enters neither step, and leaves the machine, the flag included, as it
    was. *)
Theorem directory_unavailable file_to_watch process_name batches w :
  dirname file_to_watch ∉ dirs w →
  let r := monitor_file file_to_watch process_name batches w in
  result r = Raise (WinError (dirname file_to_watch)) ∧
  after r = w ∧
  count is_read (log r) = 0%nat ∧
  count is_kill_call (log r) = 0%nat ∧
  count is_clear_call (log r) = 0%nat.
Proof.
  intros Hdir r. subst r. rewrite monitor_file_run, decide_False by done.
  cbn [result after log]. by rewrite !count_cons, count_nil.
Qed.

Lemma fires_app_l file_to_watch pre rest :
  fires file_to_watch pre → fires file_to_watch (pre ++ rest).
Proof. unfold fires. intros Hf. apply Exists_app. by left. Qed.

Lemma reads_app_fires file_to_watch pre rest :
  fires file_to_watch pre →
  reads file_to_watch (pre ++ rest) = reads file_to_watch pre.
Proof.
  unfold fires. induction pre as [|b pre IH]; [by intros ?%Exists_nil|].
  intros Hf. cbn [app reads].
  destruct (decide (Exists (names_target file_to_watch) b)); [done|].
  f_equal. apply IH. by apply Exists_cons in Hf as [?|?].
Qed.

Lemma reads_quiet file_to_watch batches :
  ¬ fires file_to_watch batches →
  reads file_to_watch batches = S (length batches).
Proof.
  unfold fires. induction batches as [|b batches IH]; [done|].
  intros Hq. cbn [reads length].
  rewrite decide_False by (intros ?; apply Hq; by left).
  f_equal. apply IH. intros ?. apply Hq. by right.
Qed.

(** X7.  The watcher is one-shot: once a batch has fired, what the OS
    would deliver afterwards makes no difference to its run. *)
Theorem later_batches_ignored file_to_watch process_name pre rest w :
  fires file_to_watch pre →
  monitor_file file_to_watch process_name (pre ++ rest) w =
  monitor_file file_to_watch process_name pre w.
Proof.
  intros Hf. rewrite !monitor_file_run.
  destruct (decide (dirname file_to_watch ∈ dirs w)); [|done].
  destruct (IS_RUNNING w) eqn:Hflag.
  - rewrite !watch_loop_run by done.
    rewrite !decide_True by (done || by apply fires_app_l).
    by rewrite reads_app_fires.
  - by rewrite !watch_loop_stopped.
Qed.

(** X8.  While no notification names the file the watcher keeps waiting:
    after the batches it has read each once, it is blocked in the next
    read, and nothing has changed. *)
Theorem watcher_keeps_waiting file_to_watch process_name batches w :
  IS_RUNNING w = true →
  dirname file_to_watch ∈ dirs w →
  ¬ fires file_to_watch batches →
  let r := monitor_file file_to_watch process_name batches w in
  result r = Blocked ∧
  after r = w ∧
  count is_read (log r) = S (length batches).
Proof.
  intros Hflag Hdir Hquiet r. subst r.
  rewrite monitor_file_run, decide_True by done. cbv zeta.
  rewrite watch_loop_run, decide_False by done. cbn [result after log].
  split_and!; [done..|]. rewrite !count_cons. cbn [is_read].
  rewrite reads_quiet by done. generalize (S (length batches)). intros n.
  induction n as [|n IH]; [done|].
  cbn [replicate]. rewrite count_cons. cbn [is_read]. lia.
Qed.

End WatcherMore.

Section ConsoleOutput.
Context `{OsPath}.

Lemma monitor_file_fires_log file_to_watch process_name batches w :
  IS_RUNNING w = true →
  dirname file_to_watch ∈ dirs w →
  fires file_to_watch batches →
  log (monitor_file file_to_watch process_name batches w) =
  ECall F_monitor_file file_to_watch :: ECreateFile (dirname file_to_watch) ::
  replicate (reads file_to_watch batches) EReadDirectoryChanges ++
  log (triggered file_to_watch process_name w).
Proof.
  intros Hflag Hdir Hfires.
  rewrite monitor_file_run, decide_True by done. cbv zeta.
  rewrite watch_loop_run, decide_True by done. reflexivity.
Qed.

Lemma triggered_free_log file_to_watch process_name w :
  Forall (λ p, on_kill p = KillOk) (matching process_name (processes w)) →
  contention w 0 = OpenOk →
  log (triggered file_to_watch process_name w) =
  EPrint (detected_msg file_to_watch) ::
  (ECall F_kill_process_by_name process_name :: EProcessIter ::
   (matching process_name (processes w) ≫= kill_events process_name)) ++
  (ECall F_clear_file_content file_to_watch :: success_events file_to_watch) ++
  [ESetRunning false].
Proof.
  intros Hkills Hfree.
  rewrite triggered_run, kill_step_ok by done. cbv zeta. cbn [result after log].
  set (wk := set_processes _ w).
  assert (contention wk 0 = OpenOk) as Hfree' by exact Hfree.
  rewrite (clear_file_content_free file_to_watch wk Hfree').
  reflexivity.
Qed.

Lemma prints_reads n : prints (replicate n EReadDirectoryChanges) = [].
Proof. induction n as [|n IH]; [done|exact IH]. Qed.

Lemma prints_kill_events process_name ps :
  prints (ps ≫= kill_events process_name) =
  (λ p, terminating_msg process_name (pid p)) <$> ps.
Proof.
  induction ps as [|p ps IH]; [done|].
  change ((p :: ps) ≫= kill_events process_name)
    with (kill_events process_name p ++ (ps ≫= kill_events process_name)).
  rewrite prints_app, IH. reflexivity.
Qed.

(** X11.  What a successful run prints, in order: the detection line, one
    termination line per killed process in table order, then the line
    that says the file is corrupted. *)
Theorem console_output file_to_watch process_name batches w :
  IS_RUNNING w = true →
  dirname file_to_watch ∈ dirs w →
  fires file_to_watch batches →
  contention w 0 = OpenOk →
  Forall (λ p, on_kill p = KillOk) (matching process_name (processes w)) →
  prints (log (monitor_file file_to_watch process_name batches w)) =
  detected_msg file_to_watch ::
  ((λ p, terminating_msg process_name (pid p)) <$>
     matching process_name (processes w)) ++
  [corrupted_msg file_to_watch].
Proof.
  intros Hflag Hdir Hfires Hfree Hkills.
  rewrite monitor_file_fires_log, triggered_free_log by done.
  change (prints (ECall ?f ?a :: ECreateFile ?d :: ?l)) with (prints l).
  rewrite prints_app, prints_reads.
  change (prints (EPrint ?s :: ?l)) with (s :: prints l).
  rewrite !prints_app.
  change (prints (ECall ?f ?a :: EProcessIter :: ?l)) with (prints l).
  rewrite prints_kill_events. reflexivity.
Qed.

End ConsoleOutput.

(** ** Further properties of the controller *)




(** ** Concrete runs *)

#[local] Existing Instance plain_paths.

(** C1, counterexample.  The second [a.exe] refuses the kill: the responder
    raises, the third [a.exe] gets no call and the file is never opened.
    And when the [open] fails for another reason than a lock, the responder
    raises as well. *)
Lemma responder_raises :
  (let r := triggered sample_file "a.exe" (sample_world []) in
   pid <$> matching "a.exe" sample_processes = [4; 9; 12] ∧
   result r = Raise (AccessDenied 9) ∧
   kills (log r) = [4; 9] ∧
   count is_open (log r) = 0%nat) ∧
  (let r := triggered sample_file "b.exe" (sample_world [OpenFails]) in
   result r = Raise (OSError sample_file)).
Proof. vm_compute. repeat split. Qed.

Lemma responder_completes_witness :
  let r := triggered sample_file "b.exe" (sample_world [OpenLocked; OpenOk]) in
  result r = Ok Break ∧
  kills (log r) = [8] ∧
  (1 ≤ attempts sample_file (log r))%nat ∧
  IS_RUNNING (after r) = false.
Proof.
  apply (proj1 (responder_completes sample_file "b.exe"
                  (sample_world [OpenLocked; OpenOk]))).
  - vm_compute. by repeat constructor.
  - vm_compute. by intros [|[|?%elem_of_nil]%elem_of_cons]%elem_of_cons.
Defined.

(** C5, counterexample.  The file exists with content and nothing locks it,
    a notification for it arrives, and yet it keeps its content: the kill
    step raised before the truncate step. *)
Lemma watcher_leaves_file :
  let w := sample_world [] in
  let r := monitor_file sample_file "a.exe" sample_batches w in
  files w !! sample_file = Some sample_content ∧
  contention w 0 = OpenOk ∧
  result r = Raise (AccessDenied 9) ∧
  files (after r) !! sample_file = Some sample_content.
Proof. vm_compute. repeat split. Qed.

Lemma watcher_truncates_file_witness :
  let r := monitor_file sample_file "b.exe" sample_batches (sample_world []) in
  result r = Ok tt ∧
  files (after r) !! sample_file = Some [] ∧
  IS_RUNNING (after r) = false.
Proof.
  apply (watcher_truncates_file sample_file "b.exe" sample_batches
           (sample_world []) sample_content).
  - reflexivity.
  - by vm_compute.
  - right. left. left. reflexivity.
  - reflexivity.
  - reflexivity.
  - vm_compute. by repeat constructor.
Defined.

(** C6, counterexample.  Three processes match; the call on the second
    fails, and the third receives none. *)
Lemma kill_step_stops_at_failure :
  let r := kill_process_by_name "a.exe" (sample_world []) in
  pid <$> matching "a.exe" (processes (sample_world [])) = [4; 9; 12] ∧
  kills (log r) = [4; 9] ∧
  result r = Raise (AccessDenied 9).
Proof. vm_compute. repeat split. Qed.

Lemma kill_step_calls_witness :
  let r := kill_process_by_name "b.exe" (sample_world []) in
  result r = Ok tt ∧
  kills (log r) = [8] ∧
  length (kills (log r)) = 1%nat ∧
  (matching "b.exe" sample_processes = [] → kills (log r) = []).
Proof.
  apply (kill_step_calls "b.exe" (sample_world [])).
  vm_compute. by repeat constructor.
Defined.

Lemma retry_policy_witness :
  (let r := clear_file_content sample_file
              (sample_world [OpenLocked; OpenLocked; OpenLocked; OpenLocked]) in
   result r = Ok tt ∧
   attempts sample_file (log r) = 5%nat ∧
   files (after r) !! sample_file = Some [] ∧
   log r = ECall F_clear_file_content sample_file ::
           concat (replicate 4 (locked_events sample_file)) ++
           success_events sample_file) ∧
  (let w := sample_world
              [OpenLocked; OpenLocked; OpenLocked; OpenLocked; OpenLocked; OpenOk] in
   let r := clear_file_content sample_file w in
   result r = Ok tt ∧
   attempts sample_file (log r) = 5%nat ∧
   files (after r) = files w ∧
   log r = ECall F_clear_file_content sample_file ::
           concat (replicate 5 (locked_events sample_file))).
Proof.
  split.
  - apply (proj1 (clear_file_content_retry_policy sample_file _)).
    + intros k Hk. do 4 (destruct k as [|k]; [reflexivity|]). lia.
    + reflexivity.
  - apply (proj2 (clear_file_content_retry_policy sample_file _)).
    intros k Hk. do 5 (destruct k as [|k]; [reflexivity|]). lia.
Defined.

(** C10, counterexample.  The file does not exist and a lock refuses the
    first [open]: the file is created at the second attempt, not the first.
    And when a lock refuses all five, the step returns and there is still
    no file. *)
Lemma missing_file_not_created_at_first_attempt :
  (let w := sample_world_no_file [OpenLocked; OpenOk] in
   let r := clear_file_content sample_file w in
   files w !! sample_file = None ∧
   attempts sample_file (log r) = 2%nat ∧
   files (after r) !! sample_file = Some []) ∧
  (let w := sample_world_no_file
              [OpenLocked; OpenLocked; OpenLocked; OpenLocked; OpenLocked] in
   let r := clear_file_content sample_file w in
   files w !! sample_file = None ∧
   result r = Ok tt ∧
   attempts sample_file (log r) = 5%nat ∧
   files (after r) !! sample_file = None).
Proof. vm_compute. repeat split. Qed.

Lemma missing_file_created_witness :
  (let w := sample_world_no_file [] in
   let r := clear_file_content sample_file w in
   result r = Ok tt ∧
   attempts sample_file (log r) = 1%nat ∧
   files (after r) !! sample_file = Some [] ∧
   size (files (after r)) = S (size (files w)) ∧
   prints (log r) = [corrupted_msg sample_file]) ∧
  (let w := sample_world_no_file [OpenLocked; OpenOk] in
   let r := clear_file_content sample_file w in
   result r = Ok tt ∧
   attempts sample_file (log r) = 2%nat ∧
   files (after r) !! sample_file = Some [] ∧
   size (files (after r)) = S (size (files w)) ∧
   prints (log r) = [corrupted_msg sample_file]) ∧
  (let w := sample_world_no_file
              [OpenLocked; OpenLocked; OpenLocked; OpenLocked; OpenLocked] in
   let r := clear_file_content sample_file w in
   result r = Ok tt ∧
   attempts sample_file (log r) = max_retries ∧
   files (after r) !! sample_file = None ∧
   prints (log r) = []).
Proof.
  split_and!.
  - apply (proj1 (missing_file_created_at_granted_open sample_file
                    (sample_world_no_file []) eq_refl) 0%nat).
    + unfold max_retries. lia.
    + intros j Hj. lia.
    + reflexivity.
  - apply (proj1 (missing_file_created_at_granted_open sample_file
                    (sample_world_no_file [OpenLocked; OpenOk]) eq_refl) 1%nat).
    + unfold max_retries. lia.
    + intros j Hj. destruct j as [|j]; [reflexivity|lia].
    + reflexivity.
  - apply (proj2 (missing_file_created_at_granted_open sample_file
                    (sample_world_no_file
                       [OpenLocked; OpenLocked; OpenLocked; OpenLocked; OpenLocked])
                    eq_refl)).
    intros j Hj. unfold max_retries in Hj.
    do 5 (destruct j as [|j]; [reflexivity|]). lia.
Defined.

Lemma other_names_witness :
  let r := monitor_file sample_file "a.exe" [[(3, "g.txt")]; [(1, "F.TXT")]]
             (sample_world []) in
  after r = sample_world [] ∧
  Forall (λ e, watch_inner e = true) (log r) ∧
  count is_kill_call (log r) = 0%nat ∧
  count is_clear_call (log r) = 0%nat ∧
  count is_flag_write (log r) = 0%nat.
Proof.
  apply (proj2 (other_names_never_trigger sample_file "a.exe")).
  repeat constructor; by vm_compute.
Defined.

Lemma wrong_arity_witness :
  let r := main ["FileDetection"; sample_file] [] (sample_world []) in
  result r = Raise (SystemExit 1) ∧
  exit_code (result r) = Some 1 ∧
  log r = [EPrint usage_msg] ∧
  after r = sample_world [].
Proof.
  apply (wrong_arity_exits ["FileDetection"; sample_file] [] (sample_world [])).
  simpl. lia.
Defined.

(** Runs for the further properties. *)

Lemma retry_succeeds_witness :
  let r := clear_file_content sample_file
             (sample_world [OpenLocked; OpenLocked; OpenOk; OpenLocked]) in
  result r = Ok tt ∧
  attempts sample_file (log r) = 3%nat ∧
  count is_sleep (log r) = 2%nat ∧
  files (after r) !! sample_file = Some [] ∧
  prints (log r) = [corrupted_msg sample_file].
Proof.
  apply (retry_succeeds_after_locks sample_file _ 2).
  - unfold max_retries. lia.
  - intros j Hj. do 2 (destruct j as [|j]; [reflexivity|]). lia.
  - reflexivity.
Defined.

Lemma other_open_errors_witness :
  let w := sample_world [OpenLocked; OpenFails; OpenOk] in
  let r := clear_file_content sample_file w in
  result r = Raise (OSError sample_file) ∧
  attempts sample_file (log r) = 2%nat ∧
  files (after r) = files w ∧
  prints (log r) = [].
Proof.
  apply (other_open_errors_propagate sample_file _ 1).
  - unfold max_retries. lia.
  - intros j Hj. destruct j as [|j]; [reflexivity|lia].
  - reflexivity.
Defined.

Lemma kill_step_only_matching_witness :
  ∃ proc, proc ∈ processes (sample_world []) ∧ pid proc = 4 ∧
          name proc = Some "a.exe".
Proof.
  apply (kill_step_only_matching "a.exe" (sample_world []) 4).
  vm_compute. by left.
Defined.

Lemma directory_unavailable_witness :
  let r := monitor_file sample_file "a.exe" sample_batches sample_world_no_dir in
  result r = Raise (WinError (dirname sample_file)) ∧
  after r = sample_world_no_dir ∧
  count is_read (log r) = 0%nat ∧
  count is_kill_call (log r) = 0%nat ∧
  count is_clear_call (log r) = 0%nat.
Proof.
  apply (directory_unavailable sample_file "a.exe" sample_batches
           sample_world_no_dir).
  apply not_elem_of_empty.
Defined.

Lemma later_batches_witness :
  monitor_file sample_file "b.exe" ([[(3, "f.txt")]] ++ [[(1, "f.txt")]; []])
    (sample_world []) =
  monitor_file sample_file "b.exe" [[(3, "f.txt")]] (sample_world []).
Proof.
  apply (later_batches_ignored sample_file "b.exe").
  left. left. reflexivity.
Defined.

Lemma watcher_keeps_waiting_witness :
  let r := monitor_file sample_file "a.exe" [[(3, "g.txt")]; [(1, "F.TXT")]]
             (sample_world []) in
  result r = Blocked ∧
  after r = sample_world [] ∧
  count is_read (log r) = 3%nat.
Proof.
  apply (watcher_keeps_waiting sample_file "a.exe"
           [[(3, "g.txt")]; [(1, "F.TXT")]] (sample_world [])).
  - reflexivity.
  - by vm_compute.
  - unfold fires.
    intros [Hb|[Hb|Hb%Exists_nil]%Exists_cons]%Exists_cons; [| |done];
      apply Exists_cons in Hb as [Hn|Hn%Exists_nil]; [|done| |done];
      vm_compute in Hn; discriminate Hn.
Defined.

Lemma console_output_witness :
  prints (log (monitor_file sample_file "b.exe" sample_batches (sample_world []))) =
  [detected_msg sample_file; terminating_msg "b.exe" 8; corrupted_msg sample_file].
Proof.
  apply (console_output sample_file "b.exe" sample_batches (sample_world [])).
  - reflexivity.
  - by vm_compute.
  - right. left. left. reflexivity.
  - reflexivity.
  - vm_compute. by repeat constructor.
Defined.
